(** * Lunaticbot: the message-intake and quote-dispatch pipeline of [main.py]

    A shallow embedding of [is_valid_solana_address], [execute_jupiter_swap]
    and [handle_message], and the properties of the pipeline they form.

    Python strings are sequences of Unicode code points; the dedup registry
    [processed_addresses] is a finite set of strings; the handlers are
    programs over the effects the source performs (set membership and
    insertion, the blocking HTTP request, logging, and the two awaited
    Telegram calls), with Python exceptions as a second kind of result.

    What lies outside the source is a [world]: it answers each request and
    each Telegram call, by a value or by an exception, and every exception
    it raises is an instance of [Exception]. An update is taken to carry a
    message with a text, which is what the handler's filter lets through. *)

From Stdlib Require Import ZArith NArith List String Ascii Lia Bool.
From Stdlib Require Import Floats.SpecFloat DecimalString.
From stdpp Require Import base gmap sets list.

Local Open Scope N_scope.

(** ** Strings *)

Module PyStr.

(** A character is a Unicode code point, a [str] is the sequence of them. *)
Definition char := N.
Definition str := list char.

(** Literals of the source, written as Rocq strings (ASCII only). *)
Definition lit (s : string) : str :=
  List.map N_of_ascii (list_ascii_of_string s).

Definition LF : char := 10.

(** [Py_UNICODE_ISSPACE]: the characters [str.strip()] removes. *)
Definition isspace (c : char) : bool :=
  ((9 <=? c) && (c <=? 13)) || ((28 <=? c) && (c <=? 32))
  || (c =? 133) || (c =? 160) || (c =? 5760)
  || ((8192 <=? c) && (c <=? 8202))
  || (c =? 8232) || (c =? 8233) || (c =? 8239) || (c =? 8287)
  || (c =? 12288).

Fixpoint lstrip (s : str) : str :=
  match s with
  | c :: s' => if isspace c then lstrip s' else s
  | [] => []
  end.

Definition rstrip (s : str) : str := rev (lstrip (rev s)).

(** [s.strip()] *)
Definition strip (s : str) : str := rstrip (lstrip s).

(** [needle in haystack] on strings. *)
Fixpoint startswith (s p : str) : bool :=
  match p, s with
  | [], _ => true
  | c :: p', d :: s' => (c =? d) && startswith s' p'
  | _ :: _, [] => false
  end.

Fixpoint contains (s p : str) : bool :=
  startswith s p ||
  match s with
  | [] => false
  | _ :: s' => contains s' p
  end.

End PyStr.
Import PyStr.

(** ** The fragment of Python's [re] the validator uses *)

Module Re.

(** A pattern is a sequence of nodes: the anchors [^] and [$] and a
    character class under a bounded greedy repetition. *)
Inductive node :=
| AtBeginning
| AtEnd
| MaxRepeat (lo hi : nat) (ranges : list (char * char)).

Definition pattern := list node.

Definition in_class (ranges : list (char * char)) (c : char) : bool :=
  existsb (fun r => (fst r <=? c) && (c <=? snd r)) ranges.

(** Without [re.MULTILINE], [$] matches at the end of the string and
    also just before a line feed that ends the string. *)
Definition at_end (rest : str) : bool :=
  match rest with
  | [] => true
  | [c] => c =? LF
  | _ => false
  end.

(** Greedy [{lo,hi}]: take a character of the class while allowed, and
    fall back to the continuation [k] when the taken count reaches [lo].
    [pos] is the offset in the subject, [rest] what is left of it; the
    result is the offset where the whole match ends. *)
Fixpoint max_repeat (ranges : list (char * char)) (lo hi : nat)
    (k : nat -> str -> option nat) (pos : nat) (rest : str) : option nat :=
  let stop := match lo with O => k pos rest | S _ => None end in
  match hi with
  | O => stop
  | S hi' =>
      match rest with
      | c :: rest' =>
          if in_class ranges c then
            match max_repeat ranges (pred lo) hi' k (S pos) rest' with
            | Some e => Some e
            | None => stop
            end
          else stop
      | [] => stop
      end
  end.

Fixpoint match_nodes (p : pattern) (pos : nat) (rest : str) : option nat :=
  match p with
  | [] => Some pos
  | AtBeginning :: p' =>
      match pos with O => match_nodes p' pos rest | S _ => None end
  | AtEnd :: p' =>
      if at_end rest then match_nodes p' pos rest else None
  | MaxRepeat lo hi ranges :: p' =>
      max_repeat ranges lo hi (match_nodes p') pos rest
  end.

(** [re.match(p, s)]: a match anchored at offset 0, or [None]. *)
Definition re_match (p : pattern) (s : str) : option nat :=
  match_nodes p 0%nat s.

End Re.

(** ** [is_valid_solana_address] *)

(** [r'^[1-9A-HJ-NP-Za-km-z]{32,44}$'] *)
Definition base58_regex : Re.pattern :=
  [ Re.AtBeginning;
    Re.MaxRepeat 32 44
      [ (49, 57);      (* 1-9 *)
        (65, 72);      (* A-H *)
        (74, 78);      (* J-N *)
        (80, 90);      (* P-Z *)
        (97, 107);     (* a-k *)
        (109, 122) ]   (* m-z *);
    Re.AtEnd ].

Definition is_valid_solana_address (address : str) : bool :=
  match Re.re_match base58_regex address with
  | Some _ => true
  | None => false
  end.

(** The base-58 alphabet as the specification words it: the digits 1 to 9,
    the uppercase letters except I and O, the lowercase letters except l. *)
Definition is_base58_char (c : char) : bool :=
  ((49 <=? c) && (c <=? 57))
  || ((65 <=? c) && (c <=? 90) && negb (c =? 73) && negb (c =? 79))
  || ((97 <=? c) && (c <=? 122) && negb (c =? 108)).

(** What the specification asks of the validator. *)
Definition well_formed_address (s : str) : bool :=
  (32 <=? length s)%nat && (length s <=? 44)%nat && forallb is_base58_char s.

Definition wrapped_sol : str := lit "So11111111111111111111111111111111111111112".


(** ** Values, exceptions and effects *)

#[local] Set Warnings "-register-all".

(** What [response.json()] can return: the Python image of a JSON text.
    An object is the list of the items of the [dict] (its keys distinct). *)
Inductive json :=
| JNull
| JBool (b : bool)
| JInt (n : Z)
| JFloat (f : spec_float)
| JStr (s : str)
| JArr (items : list json)
| JObj (members : list (str * json)).

(** [bool(v)], the test of [if not quote]. *)
Definition truthy (v : json) : bool :=
  match v with
  | JNull => false
  | JBool b => b
  | JInt n => negb (n =? 0)%Z
  | JFloat (S754_zero _) => false
  | JFloat _ => true
  | JStr s => match s with [] => false | _ => true end
  | JArr items => match items with [] => false | _ => true end
  | JObj members => match members with [] => false | _ => true end
  end.

(** Every exception of the model is an instance of [Exception]:
    [KeyError] and [TypeError] come from subscripting, [LibraryError]
    stands for whatever [requests] or the Telegram client raise and
    carries the text [str(e)] gives. *)
Inductive exn :=
| KeyError (key : str)
| TypeError (msg : str)
| LibraryError (msg : str).

(** [str(e)]; the text of a [KeyError] is the [repr] of its key, which for
    the plain key the source uses is the key between single quotes. *)
Definition str_of_exn (e : exn) : str :=
  match e with
  | KeyError key => lit "'" ++ key ++ lit "'"
  | TypeError msg => msg
  | LibraryError msg => msg
  end.

Fixpoint dict_get (key : str) (members : list (str * json)) : option json :=
  match members with
  | [] => None
  | (k, v) :: rest => if decide (k = key) then Some v else dict_get key rest
  end.

(** [v[key]] for a string key. *)
Definition getitem (v : json) (key : str) : exn + json :=
  match v with
  | JObj members =>
      match dict_get key members with
      | Some x => inr x
      | None => inl (KeyError key)
      end
  | JArr _ => inl (TypeError (lit "list indices must be integers or slices, not str"))
  | JStr _ => inl (TypeError (lit "string indices must be integers, not 'str'"))
  | JNull => inl (TypeError (lit "'NoneType' object is not subscriptable"))
  | JBool _ => inl (TypeError (lit "'bool' object is not subscriptable"))
  | JInt _ => inl (TypeError (lit "'int' object is not subscriptable"))
  | JFloat _ => inl (TypeError (lit "'float' object is not subscriptable"))
  end.

Definition str_of_Z (n : Z) : str := lit (NilZero.string_of_int (Z.to_int n)).

(** A [requests.Response], as far as the source looks at it. *)
Record response := {
  status_code : Z;
  reason : str;
  url : str;
  json_result : exn + json   (* [response.json()]: raises or parses *)
}.

(** The operations of the source that touch something outside the handler:
    the global set, the network, the log, and the two awaited sends. *)
Inductive effect : Type -> Type :=
| SetContains (a : str) : effect bool
| SetAdd (a : str) : effect unit
| RequestsGet (url : str) (params : list (str * json)) : effect (exn + response)
| LoggerError (msg : str) : effect unit
| ReplyText (text : str) : effect (exn + unit)
| SendMessage (chat_id text parse_mode : str) : effect (exn + unit).

(** A handler body: it returns, raises, or performs an operation and goes
    on with the answer. *)
Inductive prog (A : Type) : Type :=
| Return (a : A)
| Raise (e : exn)
| Perform {X : Type} (op : effect X) (k : X -> prog A).

Arguments Return {A} a.
Arguments Raise {A} e.
Arguments Perform {A X} op k.

Fixpoint bind {A B : Type} (m : prog A) (f : A -> prog B) : prog B :=
  match m with
  | Return a => f a
  | Raise e => Raise e
  | Perform op k => Perform op (fun x => bind (k x) f)
  end.

Notation "x <- m ;; k" := (bind m (fun x => k))
  (at level 100, m at next level, right associativity).
Notation "m ;;; k" := (bind m (fun _ => k))
  (at level 100, right associativity).

(** [try: body / except Exception as e: handler e] *)
Fixpoint try_except {A : Type} (body : prog A) (handler : exn -> prog A) : prog A :=
  match body with
  | Return a => Return a
  | Raise e => handler e
  | Perform op k => Perform op (fun x => try_except (k x) handler)
  end.

(** A call that may raise. *)
Definition call {A : Type} (op : effect (exn + A)) : prog A :=
  Perform op (fun r => match r with inl e => Raise e | inr a => Return a end).

Definition lift {A : Type} (r : exn + A) : prog A :=
  match r with inl e => Raise e | inr a => Return a end.

(** [Response.raise_for_status]: an [HTTPError] for a 4xx or 5xx status. *)
Definition raise_for_status (r : response) : prog unit :=
  let st := status_code r in
  if ((400 <=? st) && (st <? 500))%Z then
    Raise (LibraryError (str_of_Z st ++ lit " Client Error: " ++ reason r
                           ++ lit " for url: " ++ url r))
  else if ((500 <=? st) && (st <? 600))%Z then
    Raise (LibraryError (str_of_Z st ++ lit " Server Error: " ++ reason r
                           ++ lit " for url: " ++ url r))
  else Return tt.

(** ** [execute_jupiter_swap] *)

Definition quote_url : str := lit "https://quote-api.jup.ag/v6/quote".

Definition quote_params (token_address : str) : list (str * json) :=
  [ (lit "inputMint", JStr (lit "So11111111111111111111111111111111111111112"));
    (lit "outputMint", JStr token_address);
    (lit "amount", JStr (lit "10000000"));
    (lit "slippageBps", JInt 1500) ].

Definition execute_jupiter_swap (token_address : str) : prog json :=
  let params := quote_params token_address in
  try_except
    (response <- call (RequestsGet quote_url params) ;;
     raise_for_status response ;;;
     lift (json_result response))
    (fun e =>
       Perform (LoggerError (lit "Error getting Jupiter quote: " ++ str_of_exn e))
         (fun _ => Return JNull)).

(** ** [handle_message] *)

Definition msg_invalid : str :=
  lit "This doesn't look like a valid Solana address. Please try again.".
Definition msg_processed : str :=
  lit "This address has already been processed.".
Definition msg_failed : str :=
  lit "Failed to get quote from Jupiter. Please try again later.".

Section Handler.

(** [GROUP_CHAT_ID = os.getenv('GROUP_CHAT_ID')]: unset, or a string. *)
Variable GROUP_CHAT_ID : option str.

(** What an f-string puts for [{v}], that is [format(v, '')]: for the
    strings and integers of a quote it is defined here, for a float or a
    container it is Python's [repr], left to the interpreter. *)
Variable repr : json -> str.

Definition format_value (v : json) : str :=
  match v with
  | JStr s => s
  | JInt n => str_of_Z n
  | JBool true => lit "True"
  | JBool false => lit "False"
  | JNull => lit "None"
  | JFloat _ | JArr _ | JObj _ => repr v
  end.

Definition group_text (message_text : str) (out : json) : str :=
  [128640] ++ lit " New Solana contract address received: `" ++ message_text
    ++ lit "`" ++ [LF] ++ lit "Quote received: " ++ format_value out
    ++ lit " tokens".

Definition sender_text (message_text : str) (out : json) : str :=
  lit "Processing swap for address: " ++ message_text ++ [LF]
    ++ lit "Quote received: " ++ format_value out ++ lit " tokens".

Definition handle_message (update_message_text : str) : prog unit :=
  let message_text := strip update_message_text in
  if negb (is_valid_solana_address message_text) then
    call (ReplyText msg_invalid)
  else
    seen <- Perform (SetContains message_text) Return ;;
    if (seen : bool) then
      call (ReplyText msg_processed)
    else
      Perform (SetAdd message_text) Return ;;;
      quote <- execute_jupiter_swap message_text ;;
      if negb (truthy quote) then
        call (ReplyText msg_failed)
      else
        match GROUP_CHAT_ID with
        | Some (c :: cs) =>
            try_except
              (out <- lift (getitem quote (lit "outAmount")) ;;
               call (SendMessage (c :: cs) (group_text message_text out)
                       (lit "Markdown")))
              (fun e =>
                 Perform (LoggerError (lit "Failed to forward to group: "
                                         ++ str_of_exn e)) Return)
        | Some [] | None => Return tt
        end ;;;
        out <- lift (getitem quote (lit "outAmount")) ;;
        call (ReplyText (sender_text message_text out)).

End Handler.

(** ** Running a handler *)

(** What a handler did, in the order it did it. *)
Inductive action :=
| DidSetAdd (a : str)
| DidRequestsGet (url : str) (params : list (str * json))
| DidLoggerError (msg : str)
| DidReplyText (text : str)
| DidSendMessage (chat_id text parse_mode : str).

(** The outside of the process during one handling: what the aggregator
    answers to a request, and whether each Telegram call goes through. *)
Record world := {
  requests_get : str -> list (str * json) -> exn + response;
  reply_text : str -> exn + unit;
  send_message : str -> str -> str -> exn + unit
}.

Inductive outcome (A : Type) :=
| Returned (a : A)
| Raised (e : exn).

Arguments Returned {A} a.
Arguments Raised {A} e.

Record result (A : Type) := {
  outcome_of : outcome A;
  registry : gset str;      (* [processed_addresses] afterwards *)
  trace : list action
}.

Arguments outcome_of {A} r.
Arguments registry {A} r.
Arguments trace {A} r.

(** One operation against the registry and the world. *)
Definition perform {X : Type} (w : world) (op : effect X) (reg : gset str)
  : X * gset str * list action :=
  match op with
  | SetContains a => (bool_decide (a ∈ reg), reg, [])
  | SetAdd a => (tt, {[a]} ∪ reg, [DidSetAdd a])
  | RequestsGet u ps => (requests_get w u ps, reg, [DidRequestsGet u ps])
  | LoggerError m => (tt, reg, [DidLoggerError m])
  | ReplyText t => (reply_text w t, reg, [DidReplyText t])
  | SendMessage c t m => (send_message w c t m, reg, [DidSendMessage c t m])
  end.

Fixpoint run {A : Type} (w : world) (p : prog A) (reg : gset str) : result A :=
  match p with
  | Return a => {| outcome_of := Returned a; registry := reg; trace := [] |}
  | Raise e => {| outcome_of := Raised e; registry := reg; trace := [] |}
  | Perform op k =>
      let '(x, reg', acts) := perform w op reg in
      let r := run w (k x) reg' in
      {| outcome_of := outcome_of r; registry := registry r;
         trace := acts ++ trace r |}
  end.

(** Projections of a trace. *)
Definition replies (tr : list action) : list str :=
  omap (fun a => match a with DidReplyText t => Some t | _ => None end) tr.

Definition forwards (tr : list action) : list (str * str * str) :=
  omap (fun a => match a with
                 | DidSendMessage c t m => Some (c, t, m)
                 | _ => None
                 end) tr.

Definition quote_requests (tr : list action) : list (str * list (str * json)) :=
  omap (fun a => match a with
                 | DidRequestsGet u ps => Some (u, ps)
                 | _ => None
                 end) tr.

Definition insertions (tr : list action) : list str :=
  omap (fun a => match a with DidSetAdd x => Some x | _ => None end) tr.

(** The outcome of an awaited send, as the caller sees it. *)
Definition sent (r : exn + unit) : outcome unit :=
  match r with inl e => Raised e | inr _ => Returned tt end.

(** [if GROUP_CHAT_ID:] *)
Definition configured (chat : option str) : bool :=
  match chat with
  | Some (_ :: _) => true
  | Some [] | None => false
  end.

(** Two runs in sequence: the second starts from the registry the first
    left, unless the first raised. *)
Definition and_then {A B : Type} (r : result A) (f : A -> gset str -> result B)
  : result B :=
  match outcome_of r with
  | Returned a =>
      let r' := f a (registry r) in
      {| outcome_of := outcome_of r'; registry := registry r';
         trace := trace r ++ trace r' |}
  | Raised e =>
      {| outcome_of := Raised e; registry := registry r; trace := trace r |}
  end.

(** ** Suspension points

    Handlers run as tasks of one cooperative event loop: a task gives up
    control only at an [await] that really waits, which in [handle_message]
    is each Telegram send. [execute_jupiter_swap] is awaited too, but its
    body holds no [await] (the HTTP request blocks), so it runs through. *)

Inductive stage (A : Type) : Type :=
| Finished (o : outcome A)
| Suspended {X : Type} (op : effect X) (k : X -> prog A).

Arguments Finished {A} o.
Arguments Suspended {A X} op k.

Definition suspends {X : Type} (op : effect X) : bool :=
  match op with
  | ReplyText _ | SendMessage _ _ _ => true
  | SetContains _ | SetAdd _ | RequestsGet _ _ | LoggerError _ => false
  end.

(** Run a task up to its first suspension point. *)
Fixpoint advance {A : Type} (w : world) (p : prog A) (reg : gset str)
  : stage A * gset str * list action :=
  match p with
  | Return a => (Finished (Returned a), reg, [])
  | Raise e => (Finished (Raised e), reg, [])
  | Perform op k =>
      if suspends op then (Suspended op k, reg, [])
      else
        let '(x, reg', acts) := perform w op reg in
        let '(s, reg'', tr) := advance w (k x) reg' in
        (s, reg'', acts ++ tr)
  end.

(** How the trace of a handler that gets past the dedup check starts: the
    insertion, the quote request, and what the quote client logged. *)
Definition accepted_actions (a : str) (logs : list str) : list action :=
  DidSetAdd a :: DidRequestsGet quote_url (quote_params a)
    :: List.map DidLoggerError logs.

(** What a forward leaves in the trace: the call, and a log line when it
    raised. *)
Definition forward_actions (repr : json -> str) (w : world) (a chat : str)
    (out : json) : list action :=
  DidSendMessage chat (group_text repr a out) (lit "Markdown")
    :: match send_message w chat (group_text repr a out) (lit "Markdown") with
       | inl e => [DidLoggerError (lit "Failed to forward to group: "
                                     ++ str_of_exn e)]
       | inr _ => []
       end.

(** The world [w] with the aggregator's answer, or the group send's
    outcome, replaced. *)
Definition with_quote (w : world) (r : exn + response) : world :=
  {| requests_get := fun _ _ => r;
     reply_text := reply_text w;
     send_message := send_message w |}.

Definition with_forward (w : world) (fwd : exn + unit) : world :=
  {| requests_get := requests_get w;
     reply_text := reply_text w;
     send_message := fun _ _ _ => fwd |}.

(** ** The update a handler receives

    [update.message] is [None] for an update that is not a new message (an
    edited message, a channel post), and [message.text] is [None] for a
    message without text. Line 83 reads [update.message.text.strip()]
    unguarded: on [None] the attribute access raises [AttributeError] before
    the handler has done anything; otherwise the body runs on the text. *)
Record message := { message_text : option str }.

Record update := { update_message : option message }.

Inductive handling :=
| AttributeError (msg : str)
| Body (p : prog unit).

Definition handle_update (chat : option str) (repr : json -> str) (u : update)
  : handling :=
  match update_message u with
  | None => AttributeError (lit "'NoneType' object has no attribute 'text'")
  | Some m =>
      match message_text m with
      | None => AttributeError (lit "'NoneType' object has no attribute 'strip'")
      | Some t => Body (handle_message chat repr t)
      end
  end.

(** ** A session

    The dispatcher takes the updates one after the other: each text goes
    through [handle_message] in the world of its moment, from the registry
    the handling before it left; an exception out of a handler is logged by
    the dispatcher and the next update is taken. *)
Fixpoint handle_all (chat : option str) (repr : json -> str)
    (updates : list (world * str)) (reg : gset str) : gset str * list action :=
  match updates with
  | [] => (reg, [])
  | (w, text) :: rest =>
      let r := run w (handle_message chat repr text) reg in
      let '(reg', tr) := handle_all chat repr rest (registry r) in
      (reg', trace r ++ tr)
  end.

(** ** Tasks

    With concurrent updates each handler is a task of the event loop. A
    task runs from where it stands to its next suspension point; resuming a
    suspended task completes the awaited call first. A schedule says which
    task of the pool runs next, and what the world is like at that turn. *)
Inductive task :=
| NotStarted (p : prog unit)
| Started (s : stage unit).

Definition resume (w : world) (t : task) (reg : gset str)
  : task * gset str * list action :=
  match t with
  | NotStarted p =>
      let '(s, reg', tr) := advance w p reg in (Started s, reg', tr)
  | Started (Suspended op k) =>
      let '(x, reg1, acts) := perform w op reg in
      let '(s, reg2, tr) := advance w (k x) reg1 in
      (Started s, reg2, acts ++ tr)
  | Started (Finished o) => (t, reg, [])
  end.

Fixpoint run_pool (schedule : list (nat * world)) (pool : list task)
    (reg : gset str) : list task * gset str * list action :=
  match schedule with
  | [] => (pool, reg, [])
  | (i, w) :: rest =>
      match pool !! i with
      | Some t =>
          let '(t', reg', tr) := resume w t reg in
          let '(pool', reg'', tr') := run_pool rest (<[i := t']> pool) reg' in
          (pool', reg'', tr ++ tr')
      | None => run_pool rest pool reg
      end
  end.

(** Operations other than the insertion and the quote request, and the
    programs that perform no other. *)
Definition silent {X : Type} (op : effect X) : bool :=
  match op with
  | SetAdd _ | RequestsGet _ _ => false
  | SetContains _ | LoggerError _ | ReplyText _ | SendMessage _ _ _ => true
  end.

Fixpoint quiet {A : Type} (p : prog A) : Prop :=
  match p with
  | Return _ | Raise _ => True
  | Perform op k => silent op = true /\ forall x, quiet (k x)
  end.

Definition quiet_stage {A : Type} (s : stage A) : Prop :=
  match s with
  | Finished _ => True
  | Suspended op k => quiet (Perform op k)
  end.

(** A task of a pool of handlers: the handler of one of the texts, not yet
    started, or a task past its first stage. *)
Definition handler_task (chat : option str) (repr : json -> str)
    (texts : list str) (t : task) : Prop :=
  (exists text, text ∈ texts /\ t = NotStarted (handle_message chat repr text))
  \/ (exists s, t = Started s /\ quiet_stage s).

(** What one turn of a task does to the registry and to the requests. *)
Definition turn_effect (reg reg' : gset str) (tr : list action)
    (texts : list str) : Prop :=
  (insertions tr = [] /\ quote_requests tr = [] /\ reg' = reg)
  \/ (exists text,
        text ∈ texts
        /\ is_valid_solana_address (strip text) = true
        /\ (strip text ∉ reg)
        /\ insertions tr = [strip text]
        /\ quote_requests tr = [(quote_url, quote_params (strip text))]
        /\ reg' = {[strip text]} ∪ reg).

(** ** Start-up: [setup_wallet], [setup_telegram_bot], [run_telegram_bot],
    [setup_and_run_bot] and [main] *)

Module Startup.

(** A reference to an object of a library: a key pair, an application
    builder, an application. *)
Definition obj := N.

(** [filters.TEXT & ~filters.COMMAND] and the like. *)
Inductive filter :=
| TEXT
| COMMAND
| FAnd (f g : filter)
| FNot (f : filter).

(** The callbacks of the module, by name. *)
Inductive callback :=
| cb_start
| cb_help_command
| cb_handle_message.

Inductive handler :=
| CommandHandler (command : str) (cb : callback)
| MessageHandler (f : filter) (cb : callback).

(** What start-up does outside its own control flow. Every call into a
    library may raise; [print_setup_instructions] is imported from [utils]
    and is only called here. *)
Inductive op : Type -> Type :=
| LogError (msg : str) : op unit
| LogInfo (msg : str) : op unit
| B58decode (s : str) : op (exn + list N)
| KeypairFromBytes (raw : list N) : op (exn + obj)
| Pubkey (k : obj) : op (exn + str)          (* the text of [wallet.pubkey()] *)
| SetWallet (k : obj) : op unit              (* [global wallet; wallet = k] *)
| PrintSetupInstructions : op (exn + unit)
| ApplicationBuilder : op (exn + obj)
| BuilderToken (b : obj) (token : str) : op (exn + obj)
| BuilderBuild (b : obj) : op (exn + obj)
| AddHandler (app : obj) (h : handler) : op (exn + unit)
| Initialize (app : obj) : op (exn + unit)
| Start (app : obj) : op (exn + unit)
| RunPolling (app : obj) : op (exn + unit).

Inductive proc (A : Type) : Type :=
| Ret (a : A)
| Throw (e : exn)
| Do {X : Type} (o : op X) (k : X -> proc A).

Arguments Ret {A} a.
Arguments Throw {A} e.
Arguments Do {A X} o k.

Fixpoint seq {A B : Type} (m : proc A) (f : A -> proc B) : proc B :=
  match m with
  | Ret a => f a
  | Throw e => Throw e
  | Do o k => Do o (fun x => seq (k x) f)
  end.

(** [try: body / except Exception as e: handler e] *)
Fixpoint catch {A : Type} (body : proc A) (handler : exn -> proc A) : proc A :=
  match body with
  | Ret a => Ret a
  | Throw e => handler e
  | Do o k => Do o (fun x => catch (k x) handler)
  end.

(** A call that may raise. *)
Definition invoke {A : Type} (o : op (exn + A)) : proc A :=
  Do o (fun r => match r with inl e => Throw e | inr a => Ret a end).

Declare Scope proc_scope.
Delimit Scope proc_scope with proc.
Notation "x <- m ;; k" := (seq m (fun x => k))
  (at level 100, m at next level, right associativity) : proc_scope.
Notation "m ;;; k" := (seq m (fun _ => k))
  (at level 100, right associativity) : proc_scope.

Section Programs.

(** [os.getenv('PRIVATE_KEY')] and [os.getenv('TELEGRAM_API_TOKEN')]. *)
Variable PRIVATE_KEY : option str.
Variable TELEGRAM_API_TOKEN : option str.

Definition setup_wallet : proc bool :=
  match PRIVATE_KEY with
  | Some (c :: cs) =>
      catch
        (private_key_bytes <- invoke (B58decode (c :: cs)) ;;
         wallet <- invoke (KeypairFromBytes private_key_bytes) ;;
         Do (SetWallet wallet) Ret ;;;
         pubkey <- invoke (Pubkey wallet) ;;
         Do (LogInfo (lit "Wallet initialized with public key: " ++ pubkey)) Ret ;;;
         Ret true)%proc
        (fun e =>
           Do (LogError (lit "Failed to initialize wallet: " ++ str_of_exn e))
             (fun _ => Ret false))
  | Some [] | None =>
      Do (LogError
            (lit "PRIVATE_KEY is missing. Please set it in the Env Secrets tab."))
        (fun _ => Ret false)
  end.

Definition setup_telegram_bot : proc (option obj) :=
  match TELEGRAM_API_TOKEN with
  | Some (c :: cs) =>
      catch
        (builder <- invoke ApplicationBuilder ;;
         builder <- invoke (BuilderToken builder (c :: cs)) ;;
         application <- invoke (BuilderBuild builder) ;;
         invoke (AddHandler application
                   (CommandHandler (lit "start") cb_start)) ;;;
         invoke (AddHandler application
                   (CommandHandler (lit "help") cb_help_command)) ;;;
         invoke (AddHandler application
                   (MessageHandler (FAnd TEXT (FNot COMMAND))
                      cb_handle_message)) ;;;
         Do (LogInfo (lit "Bot has been set up successfully.")) Ret ;;;
         Ret (Some application))%proc
        (fun e =>
           Do (LogError (lit "Failed to set up Telegram bot: " ++ str_of_exn e))
             (fun _ => Ret None))
  | Some [] | None =>
      (Do (LogError
             (lit "TELEGRAM_API_TOKEN is missing. Please set it in the Env Secrets tab."))
         Ret ;;;
       invoke PrintSetupInstructions ;;;
       Ret None)%proc
  end.

Definition run_telegram_bot (application : obj) : proc unit :=
  (Do (LogInfo (lit "Starting Telegram bot")) Ret ;;;
   invoke (Initialize application) ;;;
   invoke (Start application) ;;;
   invoke (RunPolling application))%proc.

Definition setup_and_run_bot : proc unit :=
  (application <- setup_telegram_bot ;;
   match application with
   | None =>
       Do (LogError (lit "Failed to set up Telegram bot. Exiting.")) Ret
   | Some app => run_telegram_bot app
   end)%proc.

(** [asyncio.run] runs the coroutine to its end and lets its exception
    through. *)
Definition main : proc unit :=
  (ok <- setup_wallet ;;
   if negb ok then
     Do (LogError (lit "Failed to set up wallet. Exiting.")) Ret
   else setup_and_run_bot)%proc.

End Programs.

(** The libraries and the environment at start-up: the answer to each
    call. *)
Definition world := forall X : Type, op X -> X.

(** An entry of the trace: the operation performed. *)
Inductive did :=
| Did {X : Type} (o : op X).

(** Running a start-up program from a value of the global [wallet]. *)
Fixpoint exec {A : Type} (w : world) (p : proc A) (wallet : option obj)
  : outcome A * option obj * list did :=
  match p with
  | Ret a => (Returned a, wallet, [])
  | Throw e => (Raised e, wallet, [])
  | Do o k =>
      let wallet' := match o with SetWallet k => Some k | _ => wallet end in
      let '(r, wallet'', tr) := exec w (k (w _ o)) wallet' in
      (r, wallet'', Did o :: tr)
  end.

(** Classifying trace entries. *)
Definition polls (d : did) : bool :=
  match d with Did (RunPolling _) => true | _ => false end.

Definition builds (d : did) : bool :=
  match d with
  | Did ApplicationBuilder | Did (BuilderToken _ _) | Did (BuilderBuild _) => true
  | _ => false
  end.

Definition decodes (d : did) : bool :=
  match d with
  | Did (B58decode _) | Did (KeypairFromBytes _) | Did (SetWallet _) => true
  | _ => false
  end.

(** Anything that belongs to the bot rather than to the wallet. *)
Definition touches_bot (d : did) : bool :=
  match d with
  | Did PrintSetupInstructions | Did ApplicationBuilder | Did (BuilderToken _ _)
  | Did (BuilderBuild _) | Did (AddHandler _ _) | Did (Initialize _)
  | Did (Start _) | Did (RunPolling _) => true
  | _ => false
  end.

(** The three registrations of [setup_telegram_bot] and the start of the
    application, as they show in a trace. *)
Definition bot_started (app : obj) : list did :=
  [ Did (AddHandler app (CommandHandler (lit "start") cb_start));
    Did (AddHandler app (CommandHandler (lit "help") cb_help_command));
    Did (AddHandler app (MessageHandler (FAnd TEXT (FNot COMMAND))
                           cb_handle_message));
    Did (LogInfo (lit "Bot has been set up successfully."));
    Did (LogInfo (lit "Starting Telegram bot"));
    Did (Initialize app);
    Did (Start app);
    Did (RunPolling app) ].

(** A world in which every call succeeds, and one in which the
    application cannot be initialised. *)
Definition all_well : world :=
  fun X o =>
    match o in op X return X with
    | LogError _ | LogInfo _ | SetWallet _ => tt
    | B58decode _ => inr [1; 2; 3]
    | KeypairFromBytes _ => inr 7
    | Pubkey _ => inr (lit "9xQeWvG816bUx9EPjHmaT23yvVM2ZWbrrpZb9PusVFin")
    | PrintSetupInstructions => inr tt
    | ApplicationBuilder => inr 1
    | BuilderToken _ _ => inr 2
    | BuilderBuild _ => inr 3
    | AddHandler _ _ | Initialize _ | Start _ | RunPolling _ => inr tt
    end.

Definition init_fails : world :=
  fun X o =>
    match o in op X return X with
    | Initialize _ => inl (LibraryError (lit "Network is unreachable"))
    | o' => all_well _ o'
    end.

(** The exception a call raised, if it raised one. *)
Definition raised {A : Type} (r : exn + A) : option exn :=
  match r with inl e => Some e | inr _ => None end.

Definition raised_by (w : world) (d : did) : option exn :=
  match d with
  | Did o =>
      match o in op X return X -> option exn with
      | LogError _ | LogInfo _ | SetWallet _ => fun _ => None
      | B58decode _ => raised
      | KeypairFromBytes _ => raised
      | Pubkey _ => raised
      | PrintSetupInstructions => raised
      | ApplicationBuilder => raised
      | BuilderToken _ _ => raised
      | BuilderBuild _ => raised
      | AddHandler _ _ => raised
      | Initialize _ => raised
      | Start _ => raised
      | RunPolling _ => raised
      end (w _ o)
  end.

(** The calls made inside a [try] of [setup_wallet] or of
    [setup_telegram_bot], and the calls made outside any [try]. *)
Definition guarded (d : did) : bool :=
  match d with
  | Did (B58decode _) | Did (KeypairFromBytes _) | Did (Pubkey _)
  | Did ApplicationBuilder | Did (BuilderToken _ _) | Did (BuilderBuild _)
  | Did (AddHandler _ _) => true
  | _ => false
  end.

Definition unguarded (d : did) : bool :=
  match d with
  | Did PrintSetupInstructions | Did (Initialize _) | Did (Start _)
  | Did (RunPolling _) => true
  | _ => false
  end.

(** A world in which the token is refused when the application is built. *)
Definition bad_token : world :=
  fun X o =>
    match o in op X return X with
    | BuilderBuild _ => inl (LibraryError (lit "Invalid token"))
    | o' => all_well _ o'
    end.

End Startup.

(** ** Sample worlds *)

Definition http_response (st : Z) (body : exn + json) : response :=
  {| status_code := st; reason := lit "OK"; url := quote_url;
     json_result := body |}.

(** A world whose aggregator always gives the answer [r], and whose
    Telegram calls answer [fwd] (to the group) and [inr tt] (to the sender). *)
Definition answering (r : exn + response) (fwd : exn + unit) : world :=
  {| requests_get := fun _ _ => r;
     reply_text := fun _ => inr tt;
     send_message := fun _ _ _ => fwd |}.

Definition quote_body (out : str) : json := JObj [(lit "outAmount", JStr out)].

Definition no_repr (v : json) : str := lit "?".

Arguments lit : simpl never.
Arguments strip : simpl never.
Arguments is_valid_solana_address : simpl never.
Arguments quote_url : simpl never.
Arguments quote_params : simpl never.
Arguments msg_invalid : simpl never.
Arguments msg_processed : simpl never.
Arguments msg_failed : simpl never.
Arguments sender_text : simpl never.
Arguments group_text : simpl never.
Arguments execute_jupiter_swap : simpl never.

(** * Properties *)

Example wrapped_sol_valid : is_valid_solana_address wrapped_sol = true.
Proof. reflexivity. Qed.

Example short_invalid : is_valid_solana_address (lit "short") = false.
Proof. reflexivity. Qed.

(** ** The validator *)

Section Validator.

Local Open Scope nat_scope.

Lemma max_repeat_is_Some ranges k hi :
  forall lo pos rest,
    is_Some (Re.max_repeat ranges lo hi k pos rest) <->
    exists n, lo <= n <= hi /\ n <= length rest
              /\ forallb (Re.in_class ranges) (take n rest) = true
              /\ is_Some (k (pos + n) (drop n rest)).
Proof.
  induction hi as [|hi IH]; intros lo pos rest.
  - simpl. destruct lo as [|lo].
    + split.
      * intros Hk. exists 0. rewrite Nat.add_0_r. simpl.
        rewrite ?take_0, ?drop_0. repeat split; auto; lia.
      * intros (n & Hn & _ & _ & Hk). assert (n = 0) as -> by lia.
        now rewrite Nat.add_0_r, ?drop_0 in Hk.
    + split; [intros [? ?]; discriminate | intros (n & Hn & _); lia].
  - cbn [Re.max_repeat].
    set (stop := match lo with 0 => k pos rest | S _ => None end).
    assert (Hstop : is_Some stop <-> lo = 0 /\ is_Some (k pos rest)).
    { subst stop. destruct lo; split.
      - intros H; split; auto.
      - intros [_ H]; exact H.
      - intros [? ?]; discriminate.
      - intros [? _]; discriminate. }
    assert (Hzero : is_Some stop ->
              exists n, lo <= n <= S hi /\ n <= length rest
                /\ forallb (Re.in_class ranges) (take n rest) = true
                /\ is_Some (k (pos + n) (drop n rest))).
    { intros H. apply Hstop in H as [-> H]. exists 0.
      rewrite Nat.add_0_r, ?take_0, ?drop_0. simpl. repeat split; auto; lia. }
    destruct rest as [|c rest'].
    + split; [exact Hzero|].
      intros (n & Hn & Hlen & _ & Hk). simpl in Hlen.
      assert (n = 0) as -> by lia.
      apply Hstop. split; [lia|]. now rewrite Nat.add_0_r, ?drop_0 in Hk.
    + destruct (Re.in_class ranges c) eqn:Hc.
      * destruct (Re.max_repeat ranges (pred lo) hi k (S pos) rest') eqn:Hrec.
        -- split; [intros _ | intros _; eauto].
           assert (Hs : is_Some (Re.max_repeat ranges (pred lo) hi k (S pos) rest'))
             by (rewrite Hrec; eauto).
           apply IH in Hs as (m & Hm & Hlen & Hall & Hk).
           exists (S m). simpl. rewrite Hc, Hall.
           replace (pos + S m) with (S pos + m) by lia.
           repeat split; auto; lia.
        -- split; [exact Hzero|].
           intros (n & Hn & Hlen & Hall & Hk).
           destruct n as [|n].
           ++ apply Hstop. split; [lia|].
              now rewrite Nat.add_0_r, ?drop_0 in Hk.
           ++ exfalso.
              assert (Hs : is_Some (Re.max_repeat ranges (pred lo) hi k (S pos) rest')).
              { apply IH. exists n. simpl in Hall, Hlen, Hk.
                apply andb_true_iff in Hall as [_ Hall].
                replace (pos + S n) with (S pos + n) in Hk by lia.
                repeat split; auto; lia. }
              rewrite Hrec in Hs. destruct Hs; discriminate.
      * split; [exact Hzero|].
        intros (n & Hn & Hlen & Hall & Hk).
        destruct n as [|n].
        -- apply Hstop. split; [lia|].
           now rewrite Nat.add_0_r, ?drop_0 in Hk.
        -- simpl in Hall. rewrite Hc in Hall. discriminate.
Qed.

(** The character class of the pattern is the base-58 alphabet. *)
Lemma base58_class c :
  Re.in_class [(49, 57); (65, 72); (74, 78); (80, 90); (97, 107); (109, 122)]%N c
  = is_base58_char c.
Proof.
  unfold Re.in_class, is_base58_char. cbn [existsb fst snd].
  apply eq_true_iff_eq.
  repeat rewrite ?orb_true_iff, ?andb_true_iff, ?negb_true_iff,
    ?N.leb_le, ?N.eqb_neq.
  split; intros H; lia.
Qed.

Lemma base58_class_all (l : str) :
  forallb (Re.in_class [(49, 57); (65, 72); (74, 78); (80, 90); (97, 107);
                        (109, 122)]%N) l
  = forallb is_base58_char l.
Proof.
  induction l as [|c l IH]; [reflexivity|].
  cbn [forallb]. now rewrite base58_class, IH.
Qed.

Lemma at_end_iff rest :
  Re.at_end rest = true <-> rest = [] \/ rest = [LF].
Proof.
  destruct rest as [|c [|d rest]]; simpl.
  - split; auto.
  - rewrite N.eqb_eq. split.
    + intros ->. now right.
    + intros [H|H]; [discriminate | now injection H].
  - split; [discriminate | intros [H|H]; discriminate].
Qed.

(** What the pattern accepts: a well-formed address, optionally followed
    by one line feed. *)
Lemma is_valid_solana_address_iff (s : str) :
  is_valid_solana_address s = true <->
  well_formed_address s = true
  \/ exists core, s = core ++ [LF] /\ well_formed_address core = true.
Proof.
  unfold is_valid_solana_address, Re.re_match, base58_regex.
  cbn [Re.match_nodes].
  match goal with |- (match ?m with _ => _ end) = true <-> _ =>
    transitivity (is_Some m);
      [destruct m; split; intros H; try discriminate; eauto;
       destruct H; discriminate |]
  end.
  rewrite max_repeat_is_Some.
  unfold well_formed_address.
  split.
  - intros (n & Hn & Hlen & Hall & Hk). simpl in Hk.
    destruct (Re.at_end (drop n s)) eqn:He; [|destruct Hk; discriminate].
    apply at_end_iff in He as [He|He].
    + left. assert (length s <= n).
      { rewrite <- (take_drop n s) at 1. rewrite He, app_nil_r.
        rewrite length_take. lia. }
      assert (n = length s) as -> by lia.
      rewrite firstn_all in Hall.
      rewrite base58_class_all in Hall.
      repeat (apply andb_true_iff; split); auto;
        [apply Nat.leb_le | apply Nat.leb_le]; lia.
    + right. exists (take n s). split.
      * rewrite <- He. symmetry. apply take_drop.
      * rewrite length_take, Nat.min_l by lia.
        rewrite base58_class_all in Hall.
        repeat (apply andb_true_iff; split); auto;
          [apply Nat.leb_le | apply Nat.leb_le]; lia.
  - intros [H | (core & -> & H)];
      apply andb_true_iff in H as [H Hall];
      apply andb_true_iff in H as [Hlo Hhi];
      apply Nat.leb_le in Hlo; apply Nat.leb_le in Hhi.
    + exists (length s). rewrite firstn_all, drop_all.
      rewrite base58_class_all.
      simpl. repeat split; eauto; lia.
    + exists (length core).
      rewrite take_app_length, drop_app_length, length_app.
      rewrite base58_class_all.
      simpl. repeat split; eauto; lia.
Qed.

(** A string that does not end in a line feed is accepted exactly when it
    is well formed. *)
Lemma is_valid_without_final_LF (s : str) :
  last s <> Some LF ->
  is_valid_solana_address s = well_formed_address s.
Proof.
  intros Hlast. apply eq_true_iff_eq.
  rewrite is_valid_solana_address_iff. split; auto.
  intros [H | (core & -> & _)]; auto.
  exfalso. apply Hlast. apply last_snoc.
Qed.

Lemma lstrip_head s c r : lstrip s = c :: r -> isspace c = false.
Proof.
  induction s as [|d s IH]; simpl; [discriminate|].
  destruct (isspace d) eqn:Hd; auto.
  intros H. injection H as -> _. exact Hd.
Qed.

Lemma strip_last s c : last (strip s) = Some c -> isspace c = false.
Proof.
  unfold strip, rstrip. intros H.
  destruct (lstrip (rev (lstrip s))) as [|d r] eqn:Hl; [discriminate|].
  simpl in H. rewrite last_snoc in H. injection H as <-.
  eapply lstrip_head; eauto.
Qed.

(** On the text the router passes, which is stripped, the validator and
    the specification agree. *)
Lemma is_valid_stripped (text : str) :
  is_valid_solana_address (strip text) = well_formed_address (strip text).
Proof.
  apply is_valid_without_final_LF. intros H.
  apply strip_last in H. discriminate.
Qed.

End Validator.




(** ** Running programs in sequence *)

Lemma run_bind {A B : Type} (w : world) (m : prog A) (f : A -> prog B) reg :
  run w (bind m f) reg = and_then (run w m reg) (fun a reg' => run w (f a) reg').
Proof.
  revert reg. induction m as [a|e|X op k IH]; intros reg.
  - unfold and_then. simpl. now destruct (run w (f a) reg).
  - reflexivity.
  - simpl. destruct (perform w op reg) as [[x reg'] acts].
    rewrite IH. unfold and_then. simpl.
    destruct (outcome_of (run w (k x) reg')); simpl; [|reflexivity].
    now rewrite app_assoc.
Qed.

(** ** The quote client *)

(** The client returns a value in every world, leaves the registry alone,
    and its only actions are one request and, on failure, one log line. *)
Lemma execute_jupiter_swap_run (w : world) (a : str) (reg : gset str) :
  exists v logs,
    run w (execute_jupiter_swap a) reg =
    {| outcome_of := Returned v; registry := reg;
       trace := DidRequestsGet quote_url (quote_params a)
                  :: List.map DidLoggerError logs |}.
Proof.
  unfold execute_jupiter_swap, call, raise_for_status. simpl.
  destruct (requests_get w quote_url (quote_params a)) as [e|r]; simpl.
  { exists JNull, [lit "Error getting Jupiter quote: " ++ str_of_exn e].
    reflexivity. }
  destruct ((400 <=? status_code r)%Z && (status_code r <? 500)%Z); simpl.
  { eexists JNull, [_]. reflexivity. }
  destruct ((500 <=? status_code r)%Z && (status_code r <? 600)%Z); simpl.
  { eexists JNull, [_]. reflexivity. }
  destruct (json_result r) as [e|v]; simpl.
  { eexists JNull, [_]. reflexivity. }
  exists v, []. reflexivity.
Qed.

(** The value the client returns does not depend on the registry. *)
Lemma execute_jupiter_swap_outcome (w : world) (a : str) (reg reg' : gset str) :
  outcome_of (run w (execute_jupiter_swap a) reg)
  = outcome_of (run w (execute_jupiter_swap a) reg').
Proof.
  unfold execute_jupiter_swap, call, raise_for_status. simpl.
  destruct (requests_get w quote_url (quote_params a)) as [e|r]; simpl; auto.
  destruct ((400 <=? status_code r)%Z && (status_code r <? 500)%Z); simpl; auto.
  destruct ((500 <=? status_code r)%Z && (status_code r <? 600)%Z); simpl; auto.
  destruct (json_result r) as [e|v]; simpl; auto.
Qed.

Lemma status_error_iff (st : Z) :
  ((400 <=? st) && (st <? 500) || (500 <=? st) && (st <? 600))%Z = true
  <-> (400 <= st < 600)%Z.
Proof.
  rewrite orb_true_iff, !andb_true_iff, !Z.leb_le, !Z.ltb_lt. lia.
Qed.

(** C7, as the code has it: the quote client never raises. It returns
    [None] when the request raises, when the status is a 4xx or 5xx one,
    and when the body does not parse; for a response of any other status
    whose body parses it returns the parsed body. *)
Theorem execute_jupiter_swap_never_raises (w : world) (a : str) (reg : gset str) :
  exists v,
    outcome_of (run w (execute_jupiter_swap a) reg) = Returned v
    /\ (forall e, requests_get w quote_url (quote_params a) = inl e -> v = JNull)
    /\ (forall r, requests_get w quote_url (quote_params a) = inr r ->
          ((400 <= status_code r < 600)%Z -> v = JNull)
          /\ (forall e, json_result r = inl e -> v = JNull)
          /\ (forall body, ~ (400 <= status_code r < 600)%Z ->
                json_result r = inr body -> v = body)).
Proof.
  unfold execute_jupiter_swap, call, raise_for_status. simpl.
  destruct (requests_get w quote_url (quote_params a)) as [e|r]; simpl.
  { exists JNull. split; [reflexivity|]. split; [auto|].
    intros r H. discriminate. }
  pose proof (status_error_iff (status_code r)) as Hst.
  destruct ((400 <=? status_code r)%Z && (status_code r <? 500)%Z); simpl.
  { exists JNull. split; [reflexivity|]. split; [discriminate|].
    intros r' H. injection H as <-. split; [auto|]. split; [auto|].
    intros body Hn. exfalso. apply Hn, Hst. reflexivity. }
  destruct ((500 <=? status_code r)%Z && (status_code r <? 600)%Z); simpl.
  { exists JNull. split; [reflexivity|]. split; [discriminate|].
    intros r' H. injection H as <-. split; [auto|]. split; [auto|].
    intros body Hn. exfalso. apply Hn, Hst. reflexivity. }
  destruct (json_result r) as [e|v] eqn:Hj; simpl.
  { exists JNull. split; [reflexivity|]. split; [discriminate|].
    intros r' H. injection H as <-. split; [auto|]. split; [auto|].
    rewrite Hj. discriminate. }
  exists v. split; [reflexivity|]. split; [discriminate|].
  intros r' H. injection H as <-. split; [|split].
  - intros H. apply Hst in H. discriminate.
  - rewrite Hj. discriminate.
  - rewrite Hj. intros body _ H. now injection H.
Qed.

(** ** The router *)

Section Router.

Variable GROUP_CHAT_ID : option str.
Variable repr : json -> str.

(** An invalid text: one reply, nothing else. *)
Lemma handle_message_invalid_run (w : world) (text : str) (reg : gset str) :
  is_valid_solana_address (strip text) = false ->
  run w (handle_message GROUP_CHAT_ID repr text) reg =
  {| outcome_of := sent (reply_text w msg_invalid); registry := reg;
     trace := [DidReplyText msg_invalid] |}.
Proof.
  intros Hv. unfold handle_message. cbn zeta. rewrite Hv.
  cbn. now destruct (reply_text w msg_invalid) as [e|[]].
Qed.

(** A valid address already in the registry: one reply, nothing else. *)
Lemma handle_message_seen_run (w : world) (text : str) (reg : gset str) :
  is_valid_solana_address (strip text) = true ->
  strip text ∈ reg ->
  run w (handle_message GROUP_CHAT_ID repr text) reg =
  {| outcome_of := sent (reply_text w msg_processed); registry := reg;
     trace := [DidReplyText msg_processed] |}.
Proof.
  intros Hv Hin. unfold handle_message. cbn zeta. rewrite Hv.
  cbn. rewrite bool_decide_eq_true_2 by assumption.
  cbn. now destruct (reply_text w msg_processed) as [e|[]].
Qed.

(** A valid, unseen address: the insertion, then the quote client, then
    what the rest of the handler does with the value [v] it returned. *)
Section Accepted.

Variables (w : world) (text : str) (reg : gset str) (v : json).
Variable logs : list str.

Hypothesis Hvalid : is_valid_solana_address (strip text) = true.
Hypothesis Hnew : strip text ∉ reg.
Hypothesis Hquote :
  run w (execute_jupiter_swap (strip text)) ({[strip text]} ∪ reg) =
  {| outcome_of := Returned v; registry := {[strip text]} ∪ reg;
     trace := DidRequestsGet quote_url (quote_params (strip text))
                :: List.map DidLoggerError logs |}.

Ltac enter :=
  unfold handle_message; cbn zeta; rewrite Hvalid;
  cbn [negb bind run perform];
  rewrite (bool_decide_eq_false_2 _ Hnew);
  cbn [bind run perform];
  rewrite run_bind, Hquote; unfold and_then;
  cbn [outcome_of registry trace app].

Lemma handle_message_falsy_run :
  truthy v = false ->
  run w (handle_message GROUP_CHAT_ID repr text) reg =
  {| outcome_of := sent (reply_text w msg_failed);
     registry := {[strip text]} ∪ reg;
     trace := accepted_actions (strip text) logs ++ [DidReplyText msg_failed] |}.
Proof.
  intros Ht. enter. rewrite Ht. cbn.
  now destruct (reply_text w msg_failed) as [e|[]].
Qed.

Lemma handle_message_forward_run (out : json) (c : char) (cs : str) :
  truthy v = true ->
  getitem v (lit "outAmount") = inr out ->
  GROUP_CHAT_ID = Some (c :: cs) ->
  run w (handle_message GROUP_CHAT_ID repr text) reg =
  {| outcome_of := sent (reply_text w (sender_text repr (strip text) out));
     registry := {[strip text]} ∪ reg;
     trace := accepted_actions (strip text) logs
                ++ forward_actions repr w (strip text) (c :: cs) out
                ++ [DidReplyText (sender_text repr (strip text) out)] |}.
Proof.
  intros Ht Hout Hchat. enter. rewrite Ht, Hchat, Hout.
  unfold forward_actions. cbn.
  destruct (send_message w (c :: cs) (group_text repr (strip text) out)
              (lit "Markdown")) as [e|[]]; cbn;
    destruct (reply_text w (sender_text repr (strip text) out)) as [e'|[]]; cbn;
    rewrite <- ?app_assoc; reflexivity.
Qed.

Lemma handle_message_no_forward_run (out : json) :
  truthy v = true ->
  getitem v (lit "outAmount") = inr out ->
  configured GROUP_CHAT_ID = false ->
  run w (handle_message GROUP_CHAT_ID repr text) reg =
  {| outcome_of := sent (reply_text w (sender_text repr (strip text) out));
     registry := {[strip text]} ∪ reg;
     trace := accepted_actions (strip text) logs
                ++ [DidReplyText (sender_text repr (strip text) out)] |}.
Proof.
  intros Ht Hout Hchat. enter. rewrite Ht, Hout.
  destruct GROUP_CHAT_ID as [[|c cs]|]; try discriminate; cbn;
    destruct (reply_text w (sender_text repr (strip text) out)) as [e'|[]]; cbn;
    rewrite <- ?app_assoc; reflexivity.
Qed.

(** A truthy quote that cannot be subscripted by the key: the forward
    swallows the exception, the reply to the sender does not. *)
Lemma handle_message_shape_run (e : exn) :
  truthy v = true ->
  getitem v (lit "outAmount") = inl e ->
  run w (handle_message GROUP_CHAT_ID repr text) reg =
  {| outcome_of := Raised e;
     registry := {[strip text]} ∪ reg;
     trace := accepted_actions (strip text) logs ++
              if configured GROUP_CHAT_ID
              then [DidLoggerError (lit "Failed to forward to group: "
                                      ++ str_of_exn e)]
              else [] |}.
Proof.
  intros Ht Hout. enter. rewrite Ht, Hout.
  destruct GROUP_CHAT_ID as [[|c cs]|]; cbn;
    rewrite <- ?app_assoc, ?app_nil_r; reflexivity.
Qed.

End Accepted.

End Router.

(** ** Projections of traces *)

Lemma replies_app tr1 tr2 : replies (tr1 ++ tr2) = replies tr1 ++ replies tr2.
Proof. apply omap_app. Qed.

Lemma forwards_app tr1 tr2 : forwards (tr1 ++ tr2) = forwards tr1 ++ forwards tr2.
Proof. apply omap_app. Qed.

Lemma quote_requests_app tr1 tr2 :
  quote_requests (tr1 ++ tr2) = quote_requests tr1 ++ quote_requests tr2.
Proof. apply omap_app. Qed.

Lemma insertions_app tr1 tr2 :
  insertions (tr1 ++ tr2) = insertions tr1 ++ insertions tr2.
Proof. apply omap_app. Qed.

Lemma replies_cons x tr :
  replies (x :: tr)
  = match x with DidReplyText t => [t] | _ => [] end ++ replies tr.
Proof. now destruct x. Qed.

Lemma forwards_cons x tr :
  forwards (x :: tr)
  = match x with DidSendMessage c t m => [(c, t, m)] | _ => [] end
    ++ forwards tr.
Proof. now destruct x. Qed.

Lemma quote_requests_cons x tr :
  quote_requests (x :: tr)
  = match x with DidRequestsGet u ps => [(u, ps)] | _ => [] end
    ++ quote_requests tr.
Proof. now destruct x. Qed.

Lemma insertions_cons x tr :
  insertions (x :: tr)
  = match x with DidSetAdd a => [a] | _ => [] end ++ insertions tr.
Proof. now destruct x. Qed.

Lemma logs_silent (logs : list str) :
  replies (List.map DidLoggerError logs) = []
  /\ forwards (List.map DidLoggerError logs) = []
  /\ quote_requests (List.map DidLoggerError logs) = []
  /\ insertions (List.map DidLoggerError logs) = [].
Proof. induction logs as [|m logs IH]; [easy | exact IH]. Qed.

Lemma forward_actions_silent repr w a chat out :
  replies (forward_actions repr w a chat out) = []
  /\ forwards (forward_actions repr w a chat out)
     = [(chat, group_text repr a out, lit "Markdown")]
  /\ quote_requests (forward_actions repr w a chat out) = []
  /\ insertions (forward_actions repr w a chat out) = [].
Proof.
  unfold forward_actions.
  destruct (send_message w chat (group_text repr a out) (lit "Markdown"));
    easy.
Qed.

#[local] Ltac project :=
  unfold accepted_actions;
  rewrite ?replies_app, ?forwards_app, ?quote_requests_app, ?insertions_app;
  rewrite ?replies_cons, ?forwards_cons, ?quote_requests_cons, ?insertions_cons;
  repeat match goal with
    | |- context [replies (List.map DidLoggerError ?l)] =>
        rewrite (proj1 (logs_silent l))
    | |- context [forwards (List.map DidLoggerError ?l)] =>
        rewrite (proj1 (proj2 (logs_silent l)))
    | |- context [quote_requests (List.map DidLoggerError ?l)] =>
        rewrite (proj1 (proj2 (proj2 (logs_silent l))))
    | |- context [insertions (List.map DidLoggerError ?l)] =>
        rewrite (proj2 (proj2 (proj2 (logs_silent l))))
    | |- context [replies (forward_actions ?r ?w ?a ?c ?o)] =>
        rewrite (proj1 (forward_actions_silent r w a c o))
    | |- context [forwards (forward_actions ?r ?w ?a ?c ?o)] =>
        rewrite (proj1 (proj2 (forward_actions_silent r w a c o)))
    | |- context [quote_requests (forward_actions ?r ?w ?a ?c ?o)] =>
        rewrite (proj1 (proj2 (proj2 (forward_actions_silent r w a c o))))
    | |- context [insertions (forward_actions ?r ?w ?a ?c ?o)] =>
        rewrite (proj2 (proj2 (proj2 (forward_actions_silent r w a c o))))
    end;
  cbn [app replies forwards quote_requests insertions omap list_omap].

(** ** Substrings *)

Lemma startswith_app (p q : str) : startswith (p ++ q) p = true.
Proof.
  induction p as [|c p IH]; [now destruct q|].
  simpl. now rewrite N.eqb_refl, IH.
Qed.

Lemma contains_app (pre p post : str) : contains (pre ++ p ++ post) p = true.
Proof.
  induction pre as [|c pre IH].
  - cbn [app]. pose proof (startswith_app p post) as H.
    destruct (p ++ post); cbn [contains]; now rewrite H.
  - cbn [app contains]. rewrite IH. apply orb_true_r.
Qed.

(** ** What the quote call returned *)

Lemma quote_returned (w : world) (a : str) (reg reg' : gset str) (v : json) :
  outcome_of (run w (execute_jupiter_swap a) reg') = Returned v ->
  exists logs,
    run w (execute_jupiter_swap a) reg =
    {| outcome_of := Returned v; registry := reg;
       trace := DidRequestsGet quote_url (quote_params a)
                  :: List.map DidLoggerError logs |}.
Proof.
  intros H. rewrite (execute_jupiter_swap_outcome w a reg' reg) in H.
  destruct (execute_jupiter_swap_run w a reg) as (v' & logs & Hrun).
  rewrite Hrun in H. cbn in H. injection H as ->.
  now exists logs.
Qed.

(** A value that has a member under a key is a non-empty [dict]. *)
Lemma getitem_truthy (v : json) (key : str) (out : json) :
  getitem v key = inr out -> truthy v = true.
Proof.
  destruct v as [| | | | | |members]; try discriminate.
  destruct members; [discriminate | reflexivity].
Qed.

(** The values [if not quote] takes for a failure. *)
Lemma falsy_values (v : json) :
  truthy v = false <->
  v = JNull \/ v = JBool false \/ v = JInt 0 \/ (exists s, v = JFloat (S754_zero s))
  \/ v = JStr [] \/ v = JArr [] \/ v = JObj [].
Proof.
  split.
  - destruct v as [|[]|n|f|s|items|members]; cbn; intros H; try discriminate; auto.
    + apply negb_false_iff, Z.eqb_eq in H. subst. auto.
    + destruct f; try discriminate. eauto 10.
    + destruct s; [auto 10 | discriminate].
    + destruct items; [auto 10 | discriminate].
    + destruct members; [auto 10 | discriminate].
  - intros [->|[->|[->|[[s ->]|[->|[->| ->]]]]]]; reflexivity.
Qed.

(** ** The first stage of a handler *)

Lemma advance_bind {A B : Type} (w : world) (m : prog A) (f : A -> prog B) reg :
  advance w (bind m f) reg =
  match advance w m reg with
  | (Finished (Returned a), reg', tr) =>
      let '(s, reg'', tr') := advance w (f a) reg' in (s, reg'', tr ++ tr')
  | (Finished (Raised e), reg', tr) => (Finished (Raised e), reg', tr)
  | (Suspended op k, reg', tr) => (Suspended op (fun x => bind (k x) f), reg', tr)
  end.
Proof.
  revert reg. induction m as [a|e|X op k IH]; intros reg.
  - cbn. now destruct (advance w (f a) reg) as [[s reg'] tr].
  - reflexivity.
  - cbn [bind advance]. destruct (suspends op); [reflexivity|].
    destruct (perform w op reg) as [[x reg'] acts]. rewrite IH.
    destruct (advance w (k x) reg') as [[[[a|e]|Y op' k'] reg''] tr]; auto.
    destruct (advance w (f a) reg'') as [[s reg3] tr'].
    now rewrite app_assoc.
Qed.

(** The quote client never suspends: it runs through in one stage. *)
Lemma execute_jupiter_swap_advance (w : world) (a : str) (reg : gset str) :
  exists v logs,
    advance w (execute_jupiter_swap a) reg =
    (Finished (Returned v), reg,
     DidRequestsGet quote_url (quote_params a) :: List.map DidLoggerError logs).
Proof.
  unfold execute_jupiter_swap, call, raise_for_status. simpl.
  destruct (requests_get w quote_url (quote_params a)) as [e|r]; simpl.
  { eexists JNull, [_]. reflexivity. }
  destruct ((400 <=? status_code r)%Z && (status_code r <? 500)%Z); simpl.
  { eexists JNull, [_]. reflexivity. }
  destruct ((500 <=? status_code r)%Z && (status_code r <? 600)%Z); simpl.
  { eexists JNull, [_]. reflexivity. }
  destruct (json_result r) as [e|v]; simpl.
  { eexists JNull, [_]. reflexivity. }
  exists v, []. reflexivity.
Qed.

(** Up to its first suspension point, the handler of a valid, unseen
    address has inserted it, then issued the quote request, and has sent
    nothing yet. *)
Lemma handle_message_first_stage
    (chat : option str) (repr : json -> str) (w : world) (text : str)
    (reg : gset str) :
  is_valid_solana_address (strip text) = true ->
  strip text ∉ reg ->
  exists s logs,
    advance w (handle_message chat repr text) reg =
    (s, {[strip text]} ∪ reg,
     DidSetAdd (strip text)
       :: DidRequestsGet quote_url (quote_params (strip text))
       :: List.map DidLoggerError logs).
Proof.
  intros Hv Hnew. unfold handle_message. cbn zeta. rewrite Hv.
  cbn [negb bind advance perform suspends].
  rewrite (bool_decide_eq_false_2 _ Hnew).
  cbn [bind advance perform suspends].
  rewrite advance_bind.
  destruct (execute_jupiter_swap_advance w (strip text) ({[strip text]} ∪ reg))
    as (v & logs & ->).
  destruct (truthy v); cbn.
  2: { eexists _, logs. now rewrite app_nil_r. }
  destruct (getitem v (lit "outAmount")) as [e|out];
    destruct chat as [[|c cs]|]; cbn.
  all: try (eexists _, logs; now rewrite app_nil_r).
  eexists _, (logs ++ [_]). rewrite List.map_app. reflexivity.
Qed.

(** The whole run of such a handler starts the same way, and holds no
    second insertion or quote request. *)
Lemma handle_message_accepted_trace
    (chat : option str) (repr : json -> str) (w : world) (text : str)
    (reg : gset str) :
  is_valid_solana_address (strip text) = true ->
  strip text ∉ reg ->
  exists tr,
    trace (run w (handle_message chat repr text) reg) =
    DidSetAdd (strip text)
      :: DidRequestsGet quote_url (quote_params (strip text)) :: tr
    /\ insertions tr = [] /\ quote_requests tr = [].
Proof.
  intros Hv Hnew.
  destruct (execute_jupiter_swap_run w (strip text) ({[strip text]} ∪ reg))
    as (v & logs & Hrun).
  destruct (truthy v) eqn:Ht.
  2: { rewrite (handle_message_falsy_run _ _ _ _ _ _ _ Hv Hnew Hrun Ht).
       cbn [trace app]. eexists. split; [reflexivity|].
       split; project; reflexivity. }
  destruct (getitem v (lit "outAmount")) as [e|out] eqn:Hout.
  { rewrite (handle_message_shape_run _ _ _ _ _ _ _ Hv Hnew Hrun e Ht Hout).
    cbn [trace app]. eexists. split; [reflexivity|].
    destruct (configured chat); split; project; reflexivity. }
  destruct (configured chat) eqn:Hchat.
  - destruct chat as [[|c cs]|]; try discriminate.
    rewrite (handle_message_forward_run _ _ _ _ _ _ _ Hv Hnew Hrun out c cs
               Ht Hout eq_refl).
    cbn [trace app]. eexists. split; [reflexivity|].
    split; project; reflexivity.
  - rewrite (handle_message_no_forward_run _ _ _ _ _ _ _ Hv Hnew Hrun out
               Ht Hout Hchat).
    cbn [trace app]. eexists. split; [reflexivity|].
    split; project; reflexivity.
Qed.

(** A response that passes [raise_for_status] and parses. *)
Lemma execute_jupiter_swap_parsed (w : world) (a : str) (reg : gset str)
    (resp : response) (body : json) :
  requests_get w quote_url (quote_params a) = inr resp ->
  ~ (400 <= status_code resp < 600)%Z ->
  json_result resp = inr body ->
  run w (execute_jupiter_swap a) reg =
  {| outcome_of := Returned body; registry := reg;
     trace := DidRequestsGet quote_url (quote_params a)
                :: List.map DidLoggerError [] |}.
Proof.
  intros Hget Hst Hbody.
  unfold execute_jupiter_swap, call, raise_for_status. simpl.
  rewrite Hget. simpl.
  pose proof (status_error_iff (status_code resp)) as Hiff.
  destruct ((400 <=? status_code resp)%Z && (status_code resp <? 500)%Z);
    [exfalso; apply Hst, Hiff; reflexivity|].
  destruct ((500 <=? status_code resp)%Z && (status_code resp <? 600)%Z);
    [exfalso; apply Hst, Hiff; reflexivity|].
  simpl. rewrite Hbody. reflexivity.
Qed.

(** A request that raises. *)
Lemma execute_jupiter_swap_transport_error (w : world) (a : str)
    (reg : gset str) (e : exn) :
  requests_get w quote_url (quote_params a) = inl e ->
  run w (execute_jupiter_swap a) reg =
  {| outcome_of := Returned JNull; registry := reg;
     trace := DidRequestsGet quote_url (quote_params a)
                :: List.map DidLoggerError
                     [lit "Error getting Jupiter quote: " ++ str_of_exn e] |}.
Proof.
  intros Hget.
  unfold execute_jupiter_swap, call, raise_for_status. simpl.
  rewrite Hget. reflexivity.
Qed.

(** ** The claims about the router *)

(** C5: a message whose text fails validation gets the rejection reply and
    nothing else happens: the handler ends with that reply, the registry is
    as it was, nothing was inserted and no quote request was issued. *)
Theorem handle_message_invalid_address
    (chat : option str) (repr : json -> str) (w : world) (text : str)
    (reg : gset str) :
  is_valid_solana_address (strip text) = false ->
  let r := run w (handle_message chat repr text) reg in
  trace r = [DidReplyText msg_invalid]
  /\ outcome_of r = sent (reply_text w msg_invalid)
  /\ registry r = reg
  /\ insertions (trace r) = []
  /\ quote_requests (trace r) = [].
Proof.
  intros Hv r. subst r. rewrite handle_message_invalid_run by assumption.
  repeat split.
Qed.

Lemma handle_message_invalid_address_witness :
  let w := answering (inl (LibraryError (lit "unreachable"))) (inr tt) in
  let r := run w (handle_message None no_repr (lit "  short ")) ∅ in
  is_valid_solana_address (strip (lit "  short ")) = false
  /\ trace r = [DidReplyText msg_invalid]
  /\ outcome_of r = Returned tt
  /\ registry r = ∅
  /\ insertions (trace r) = []
  /\ quote_requests (trace r) = [].
Proof.
  split; [reflexivity|].
  apply (handle_message_invalid_address None no_repr
           (answering (inl (LibraryError (lit "unreachable"))) (inr tt))
           (lit "  short ") ∅).
  reflexivity.
Defined.

(** C3: a valid address not yet in the registry, and a quote call that
    returns a quote with an [outAmount] member. Then there is exactly one
    reply to the sender and its text contains the output amount, exactly
    one insertion, of that address, and exactly one message to the group
    when [GROUP_CHAT_ID] is configured, none when it is not. *)
Theorem handle_message_quote_success
    (chat : option str) (repr : json -> str) (w : world) (text : str)
    (reg : gset str) (quote out : json) :
  is_valid_solana_address (strip text) = true ->
  strip text ∉ reg ->
  outcome_of (run w (execute_jupiter_swap (strip text)) ({[strip text]} ∪ reg))
    = Returned quote ->
  getitem quote (lit "outAmount") = inr out ->
  let r := run w (handle_message chat repr text) reg in
  replies (trace r) = [sender_text repr (strip text) out]
  /\ contains (sender_text repr (strip text) out) (format_value repr out) = true
  /\ insertions (trace r) = [strip text]
  /\ registry r = {[strip text]} ∪ reg
  /\ forwards (trace r)
     = if configured chat
       then [(default [] chat, group_text repr (strip text) out, lit "Markdown")]
       else [].
Proof.
  intros Hv Hnew Hq Hout r.
  destruct (quote_returned w _ ({[strip text]} ∪ reg) _ _ Hq) as (logs & Hrun).
  pose proof (getitem_truthy _ _ _ Hout) as Ht.
  assert (Hc : contains (sender_text repr (strip text) out)
                 (format_value repr out) = true).
  { unfold sender_text. rewrite !app_assoc, <- app_assoc. apply contains_app. }
  destruct (configured chat) eqn:Hchat.
  - destruct chat as [[|c cs]|]; try discriminate. subst r.
    rewrite (handle_message_forward_run _ _ _ _ _ _ _ Hv Hnew Hrun out c cs Ht Hout eq_refl).
    cbn [trace registry]. repeat split; auto; project; reflexivity.
  - subst r.
    rewrite (handle_message_no_forward_run _ _ _ _ _ _ _ Hv Hnew Hrun out Ht Hout Hchat).
    cbn [trace registry]. repeat split; auto; project; reflexivity.
Qed.

Lemma handle_message_quote_success_witness :
  let w := answering (inr (http_response 200 (inr (quote_body (lit "123456")))))
             (inr tt) in
  let chat := Some (lit "-1001234") in
  let r := run w (handle_message chat no_repr wrapped_sol) ∅ in
  replies (trace r) = [sender_text no_repr (strip wrapped_sol) (JStr (lit "123456"))]
  /\ contains (sender_text no_repr (strip wrapped_sol) (JStr (lit "123456")))
       (lit "123456") = true
  /\ insertions (trace r) = [strip wrapped_sol]
  /\ registry r = {[strip wrapped_sol]} ∪ ∅
  /\ forwards (trace r)
     = [(lit "-1001234",
         group_text no_repr (strip wrapped_sol) (JStr (lit "123456")),
         lit "Markdown")].
Proof.
  apply (handle_message_quote_success (Some (lit "-1001234")) no_repr
           (answering (inr (http_response 200 (inr (quote_body (lit "123456")))))
              (inr tt))
           wrapped_sol ∅ (quote_body (lit "123456")) (JStr (lit "123456"))).
  - reflexivity.
  - apply not_elem_of_empty.
  - reflexivity.
  - reflexivity.
Defined.

(** C4: a valid address not yet in the registry, and a quote call that
    fails (it returns [None]). Then there is exactly one reply to the
    sender, the generic failure message, no message to the group, and the
    address is in the registry afterwards; whenever the same address comes
    again later, it gets the already-processed reply and no quote request
    is issued for it. *)
Theorem handle_message_quote_failure
    (chat : option str) (repr : json -> str) (w : world) (text : str)
    (reg : gset str) :
  is_valid_solana_address (strip text) = true ->
  strip text ∉ reg ->
  outcome_of (run w (execute_jupiter_swap (strip text)) ({[strip text]} ∪ reg))
    = Returned JNull ->
  let r := run w (handle_message chat repr text) reg in
  replies (trace r) = [msg_failed]
  /\ forwards (trace r) = []
  /\ strip text ∈ registry r
  /\ forall (w' : world) (text' : str) (reg' : gset str),
       strip text' = strip text ->
       registry r ⊆ reg' ->
       let r' := run w' (handle_message chat repr text') reg' in
       replies (trace r') = [msg_processed]
       /\ quote_requests (trace r') = []
       /\ registry r' = reg'.
Proof.
  intros Hv Hnew Hq r.
  destruct (quote_returned w _ ({[strip text]} ∪ reg) _ _ Hq) as (logs & Hrun).
  subst r.
  rewrite (handle_message_falsy_run _ _ _ _ _ _ _ Hv Hnew Hrun eq_refl).
  cbn [trace registry]. split; [project; reflexivity|].
  split; [project; reflexivity|].
  split; [apply elem_of_union_l; now apply elem_of_singleton|].
  intros w' text' reg' Heq Hsub.
  rewrite handle_message_seen_run.
  - repeat split.
  - now rewrite Heq.
  - rewrite Heq. apply Hsub, elem_of_union_l. now apply elem_of_singleton.
Qed.

Lemma handle_message_quote_failure_witness :
  let w := answering (inl (LibraryError (lit "connection refused"))) (inr tt) in
  let r := run w (handle_message None no_repr wrapped_sol) ∅ in
  replies (trace r) = [msg_failed]
  /\ forwards (trace r) = []
  /\ strip wrapped_sol ∈ registry r
  /\ forall (w' : world) (text' : str) (reg' : gset str),
       strip text' = strip wrapped_sol ->
       registry r ⊆ reg' ->
       let r' := run w' (handle_message None no_repr text') reg' in
       replies (trace r') = [msg_processed]
       /\ quote_requests (trace r') = []
       /\ registry r' = reg'.
Proof.
  apply (handle_message_quote_failure None no_repr
           (answering (inl (LibraryError (lit "connection refused"))) (inr tt))
           wrapped_sol ∅).
  - reflexivity.
  - apply not_elem_of_empty.
  - reflexivity.
Defined.

(** C6: in the handling of a valid, unseen address the insertion comes
    before the quote request, and both come before the handler's first
    suspension point; the run holds exactly that one quote request. So a
    second submission of the address, handled from any registry that
    extends the one of that moment, gets the already-processed reply and
    issues no quote request. *)
Theorem handle_message_marks_seen_before_quote
    (chat : option str) (repr : json -> str) (w : world) (text : str)
    (reg : gset str) :
  is_valid_solana_address (strip text) = true ->
  strip text ∉ reg ->
  (exists s logs,
     advance w (handle_message chat repr text) reg =
     (s, {[strip text]} ∪ reg,
      DidSetAdd (strip text)
        :: DidRequestsGet quote_url (quote_params (strip text))
        :: List.map DidLoggerError logs))
  /\ (exists tr,
        trace (run w (handle_message chat repr text) reg) =
        DidSetAdd (strip text)
          :: DidRequestsGet quote_url (quote_params (strip text)) :: tr
        /\ insertions tr = [] /\ quote_requests tr = [])
  /\ forall (w' : world) (text' : str) (reg' : gset str),
       strip text' = strip text ->
       {[strip text]} ∪ reg ⊆ reg' ->
       let r' := run w' (handle_message chat repr text') reg' in
       trace r' = [DidReplyText msg_processed]
       /\ replies (trace r') = [msg_processed]
       /\ quote_requests (trace r') = []
       /\ registry r' = reg'.
Proof.
  intros Hv Hnew. split; [|split].
  - now apply handle_message_first_stage.
  - now apply handle_message_accepted_trace.
  - intros w' text' reg' Heq Hsub r'. subst r'.
    rewrite handle_message_seen_run.
    + repeat split.
    + now rewrite Heq.
    + rewrite Heq. apply Hsub, elem_of_union_l. now apply elem_of_singleton.
Qed.

Lemma handle_message_marks_seen_before_quote_witness :
  let w := answering (inr (http_response 200 (inr (quote_body (lit "123456")))))
             (inr tt) in
  (exists s logs,
     advance w (handle_message None no_repr wrapped_sol) ∅ =
     (s, {[strip wrapped_sol]} ∪ ∅,
      DidSetAdd (strip wrapped_sol)
        :: DidRequestsGet quote_url (quote_params (strip wrapped_sol))
        :: List.map DidLoggerError logs))
  /\ (exists tr,
        trace (run w (handle_message None no_repr wrapped_sol) ∅) =
        DidSetAdd (strip wrapped_sol)
          :: DidRequestsGet quote_url (quote_params (strip wrapped_sol)) :: tr
        /\ insertions tr = [] /\ quote_requests tr = [])
  /\ forall (w' : world) (text' : str) (reg' : gset str),
       strip text' = strip wrapped_sol ->
       {[strip wrapped_sol]} ∪ ∅ ⊆ reg' ->
       let r' := run w' (handle_message None no_repr text') reg' in
       trace r' = [DidReplyText msg_processed]
       /\ replies (trace r') = [msg_processed]
       /\ quote_requests (trace r') = []
       /\ registry r' = reg'.
Proof.
  apply (handle_message_marks_seen_before_quote None no_repr
           (answering (inr (http_response 200 (inr (quote_body (lit "123456")))))
              (inr tt))
           wrapped_sol ∅).
  - reflexivity.
  - apply not_elem_of_empty.
Defined.

(** C8: whatever the address, the client issues one request, to the quote
    endpoint, with [inputMint] the wrapped native mint, [outputMint] the
    address it was given, [amount] the string 10000000 and [slippageBps]
    the integer 1500, and no other parameter. *)
Theorem execute_jupiter_swap_request_params
    (w : world) (token_address : str) (reg : gset str) :
  quote_requests (trace (run w (execute_jupiter_swap token_address) reg)) =
  [ (lit "https://quote-api.jup.ag/v6/quote",
     [ (lit "inputMint", JStr (lit "So11111111111111111111111111111111111111112"));
       (lit "outputMint", JStr token_address);
       (lit "amount", JStr (lit "10000000"));
       (lit "slippageBps", JInt 1500) ]) ].
Proof.
  destruct (execute_jupiter_swap_run w token_address reg) as (v & logs & ->).
  cbn [trace]. project. reflexivity.
Qed.

(** C7 as stated fails: a response with status 300, which is not a 2xx
    one, passes [raise_for_status], and the client returns its body. *)
Lemma execute_jupiter_swap_status_300 :
  ~ (forall (w : world) (a : str) (reg : gset str) (r : response),
       requests_get w quote_url (quote_params a) = inr r ->
       ~ (200 <= status_code r < 300)%Z ->
       outcome_of (run w (execute_jupiter_swap a) reg) = Returned JNull).
Proof.
  intros H.
  specialize (H (answering (inr (http_response 300 (inr (quote_body (lit "1")))))
                   (inr tt))
                wrapped_sol ∅ _ eq_refl).
  cbn in H. assert (Hst : ~ (200 <= 300 < 300)%Z) by lia.
  specialize (H Hst). discriminate H.
Qed.

(** C2, where the code departs from it: the response is a success, its
    body is a truthy value that has no [outAmount] member, and the handler
    does not end with the failure reply: it raises the exception of the
    subscript and sends no reply at all. *)
Theorem handle_message_quote_without_outAmount
    (chat : option str) (repr : json -> str) (w : world) (text : str)
    (reg : gset str) (resp : response) (body : json) (e : exn) :
  is_valid_solana_address (strip text) = true ->
  strip text ∉ reg ->
  requests_get w quote_url (quote_params (strip text)) = inr resp ->
  (200 <= status_code resp < 300)%Z ->
  json_result resp = inr body ->
  truthy body = true ->
  getitem body (lit "outAmount") = inl e ->
  let r := run w (handle_message chat repr text) reg in
  outcome_of r = Raised e
  /\ replies (trace r) = []
  /\ forwards (trace r) = [].
Proof.
  intros Hv Hnew Hget Hst Hbody Ht Hout r. subst r.
  assert (Hok : ~ (400 <= status_code resp < 600)%Z) by lia.
  pose proof (execute_jupiter_swap_parsed w _ ({[strip text]} ∪ reg) _ _
                Hget Hok Hbody) as Hrun.
  rewrite (handle_message_shape_run _ _ _ _ _ _ _ Hv Hnew Hrun e Ht Hout).
  cbn [outcome_of trace]. split; [reflexivity|].
  destruct (configured chat); split; project; reflexivity.
Qed.

Lemma handle_message_quote_without_outAmount_witness :
  let body := JObj [(lit "error", JStr (lit "Could not find any route"))] in
  let w := answering (inr (http_response 200 (inr body))) (inr tt) in
  let r := run w (handle_message None no_repr wrapped_sol) ∅ in
  outcome_of r = Raised (KeyError (lit "outAmount"))
  /\ replies (trace r) = []
  /\ forwards (trace r) = [].
Proof.
  apply (handle_message_quote_without_outAmount None no_repr
           (answering
              (inr (http_response 200
                      (inr (JObj [(lit "error",
                                   JStr (lit "Could not find any route"))]))))
              (inr tt))
           wrapped_sol ∅
           (http_response 200
              (inr (JObj [(lit "error", JStr (lit "Could not find any route"))])))
           (JObj [(lit "error", JStr (lit "Could not find any route"))])
           (KeyError (lit "outAmount"))).
  - reflexivity.
  - apply not_elem_of_empty.
  - reflexivity.
  - cbn. lia.
  - reflexivity.
  - reflexivity.
  - reflexivity.
Defined.

(** Replacing the outcome of the group send does not change what the quote
    client returns. *)
Lemma with_forward_quote (w : world) (fwd : exn + unit) (a : str)
    (reg : gset str) :
  run (with_forward w fwd) (execute_jupiter_swap a) reg
  = run w (execute_jupiter_swap a) reg.
Proof.
  unfold execute_jupiter_swap, call, raise_for_status. simpl.
  destruct (requests_get w quote_url (quote_params a)) as [e|r]; simpl; auto.
  destruct ((400 <=? status_code r)%Z && (status_code r <? 500)%Z); simpl; auto.
  destruct ((500 <=? status_code r)%Z && (status_code r <? 600)%Z); simpl; auto.
  destruct (json_result r) as [e|v]; simpl; auto.
Qed.

(** C9: the quote is a success and [GROUP_CHAT_ID] is configured. When the
    send to the group raises, the handler logs it and goes on: it ends as
    the reply to the sender ends, that reply is the only one and has the
    same text, and outcome, replies and registry are those of the run in
    which the send to the group goes through. *)
Theorem handle_message_forward_failure_swallowed
    (chat : option str) (repr : json -> str) (w : world) (text : str)
    (reg : gset str) (quote out : json) (e : exn) :
  is_valid_solana_address (strip text) = true ->
  strip text ∉ reg ->
  outcome_of (run w (execute_jupiter_swap (strip text)) ({[strip text]} ∪ reg))
    = Returned quote ->
  getitem quote (lit "outAmount") = inr out ->
  configured chat = true ->
  let failing := run (with_forward w (inl e)) (handle_message chat repr text) reg in
  let delivered := run (with_forward w (inr tt)) (handle_message chat repr text) reg in
  In (DidLoggerError (lit "Failed to forward to group: " ++ str_of_exn e))
    (trace failing)
  /\ outcome_of failing = sent (reply_text w (sender_text repr (strip text) out))
  /\ replies (trace failing) = [sender_text repr (strip text) out]
  /\ outcome_of failing = outcome_of delivered
  /\ replies (trace failing) = replies (trace delivered)
  /\ forwards (trace failing) = forwards (trace delivered)
  /\ registry failing = registry delivered.
Proof.
  intros Hv Hnew Hq Hout Hchat failing delivered.
  destruct chat as [[|c cs]|]; try discriminate.
  destruct (quote_returned w _ ({[strip text]} ∪ reg) _ _ Hq) as (logs & Hrun).
  pose proof (getitem_truthy _ _ _ Hout) as Ht.
  pose proof Hrun as Hrun'.
  rewrite <- (with_forward_quote w (inl e)) in Hrun.
  rewrite <- (with_forward_quote w (inr tt)) in Hrun'.
  assert (Hf : failing = _) by
    exact (handle_message_forward_run (Some (c :: cs)) repr
             (with_forward w (inl e)) text reg quote logs Hv Hnew Hrun out c cs
             Ht Hout eq_refl).
  assert (Hd : delivered = _) by
    exact (handle_message_forward_run (Some (c :: cs)) repr
             (with_forward w (inr tt)) text reg quote logs Hv Hnew Hrun' out c cs
             Ht Hout eq_refl).
  rewrite Hf, Hd. cbn [outcome_of trace registry with_forward reply_text].
  split.
  { apply in_or_app. right. apply in_or_app. left.
    unfold forward_actions. cbn. auto. }
  repeat split; project; reflexivity.
Qed.

Lemma handle_message_forward_failure_swallowed_witness :
  let w := answering (inr (http_response 200 (inr (quote_body (lit "123456")))))
             (inr tt) in
  let chat := Some (lit "-1001234") in
  let e := LibraryError (lit "Chat not found") in
  let failing := run (with_forward w (inl e)) (handle_message chat no_repr wrapped_sol) ∅ in
  let delivered := run (with_forward w (inr tt)) (handle_message chat no_repr wrapped_sol) ∅ in
  In (DidLoggerError (lit "Failed to forward to group: " ++ str_of_exn e))
    (trace failing)
  /\ outcome_of failing
     = sent (reply_text w (sender_text no_repr (strip wrapped_sol)
                             (JStr (lit "123456"))))
  /\ replies (trace failing)
     = [sender_text no_repr (strip wrapped_sol) (JStr (lit "123456"))]
  /\ outcome_of failing = outcome_of delivered
  /\ replies (trace failing) = replies (trace delivered)
  /\ forwards (trace failing) = forwards (trace delivered)
  /\ registry failing = registry delivered.
Proof.
  apply (handle_message_forward_failure_swallowed (Some (lit "-1001234")) no_repr
           (answering (inr (http_response 200 (inr (quote_body (lit "123456")))))
              (inr tt))
           wrapped_sol ∅ (quote_body (lit "123456")) (JStr (lit "123456"))
           (LibraryError (lit "Chat not found"))).
  - reflexivity.
  - apply not_elem_of_empty.
  - reflexivity.
  - reflexivity.
  - reflexivity.
Defined.

(** C10: a valid, unseen address, and a 2xx response whose parsed body is
    falsy. The handler inserts the address, issues the request, and sends
    the generic failure reply as its only message: nothing goes to the
    group and there is no confirmation. Outcome, registry, replies and
    forwards are those of the run in which the request raises. *)
Theorem handle_message_falsy_quote
    (chat : option str) (repr : json -> str) (w : world) (text : str)
    (reg : gset str) (resp : response) (body : json) :
  is_valid_solana_address (strip text) = true ->
  strip text ∉ reg ->
  requests_get w quote_url (quote_params (strip text)) = inr resp ->
  (200 <= status_code resp < 300)%Z ->
  json_result resp = inr body ->
  truthy body = false ->
  let r := run w (handle_message chat repr text) reg in
  trace r = [ DidSetAdd (strip text);
              DidRequestsGet quote_url (quote_params (strip text));
              DidReplyText msg_failed ]
  /\ outcome_of r = sent (reply_text w msg_failed)
  /\ replies (trace r) = [msg_failed]
  /\ forwards (trace r) = []
  /\ strip text ∈ registry r
  /\ forall e : exn,
       let r' := run (with_quote w (inl e)) (handle_message chat repr text) reg in
       outcome_of r' = outcome_of r
       /\ registry r' = registry r
       /\ replies (trace r') = replies (trace r)
       /\ forwards (trace r') = forwards (trace r).
Proof.
  intros Hv Hnew Hget Hst Hbody Ht r.
  assert (Hok : ~ (400 <= status_code resp < 600)%Z) by lia.
  pose proof (execute_jupiter_swap_parsed w _ ({[strip text]} ∪ reg) _ _
                Hget Hok Hbody) as Hrun.
  assert (Hr : r = _) by
    exact (handle_message_falsy_run chat repr w text reg body [] Hv Hnew Hrun Ht).
  rewrite Hr. cbn [outcome_of trace registry List.map app].
  split; [reflexivity|]. split; [reflexivity|]. split; [reflexivity|].
  split; [reflexivity|].
  split; [apply elem_of_union_l; now apply elem_of_singleton|].
  intros e.
  rewrite (handle_message_falsy_run chat repr (with_quote w (inl e)) text reg
             JNull _ Hv Hnew
             (execute_jupiter_swap_transport_error (with_quote w (inl e)) _ _ e
                eq_refl)
             eq_refl).
  cbn [outcome_of trace registry with_quote reply_text].
  repeat split; project; reflexivity.
Qed.

Lemma handle_message_falsy_quote_witness :
  let w := answering (inr (http_response 200 (inr (JObj [])))) (inr tt) in
  let chat := Some (lit "-1001234") in
  let r := run w (handle_message chat no_repr wrapped_sol) ∅ in
  trace r = [ DidSetAdd (strip wrapped_sol);
              DidRequestsGet quote_url (quote_params (strip wrapped_sol));
              DidReplyText msg_failed ]
  /\ outcome_of r = sent (reply_text w msg_failed)
  /\ replies (trace r) = [msg_failed]
  /\ forwards (trace r) = []
  /\ strip wrapped_sol ∈ registry r
  /\ forall e : exn,
       let r' := run (with_quote w (inl e))
                   (handle_message chat no_repr wrapped_sol) ∅ in
       outcome_of r' = outcome_of r
       /\ registry r' = registry r
       /\ replies (trace r') = replies (trace r)
       /\ forwards (trace r') = forwards (trace r).
Proof.
  apply (handle_message_falsy_quote (Some (lit "-1001234")) no_repr
           (answering (inr (http_response 200 (inr (JObj [])))) (inr tt))
           wrapped_sol ∅ (http_response 200 (inr (JObj []))) (JObj [])).
  - reflexivity.
  - apply not_elem_of_empty.
  - reflexivity.
  - cbn. lia.
  - reflexivity.
  - reflexivity.
Defined.

(** * Further properties of the pipeline *)

(** ** The validator *)

(** X1: the strings [is_valid_solana_address] accepts are exactly those made
    of 32 to 44 base-58 characters, optionally followed by one line feed. *)
Theorem is_valid_solana_address_accepts (s : str) :
  is_valid_solana_address s = true <->
  exists core,
    (s = core \/ s = core ++ [LF])
    /\ (32 <= length core <= 44)%nat
    /\ forallb is_base58_char core = true.
Proof.
  rewrite is_valid_solana_address_iff. unfold well_formed_address.
  split.
  - intros [H | (core & -> & H)];
      apply andb_true_iff in H as [H Hall];
      apply andb_true_iff in H as [Hlo Hhi];
      apply Nat.leb_le in Hlo; apply Nat.leb_le in Hhi; eauto 10.
  - intros (core & [-> | ->] & [Hlo Hhi] & Hall); [left | right; exists core; split; auto];
      repeat (apply andb_true_iff; split); auto; now apply Nat.leb_le.
Qed.

(** X2: on the text [handle_message] validates, which it has stripped, the
    validator accepts exactly the strings of 32 to 44 base-58 characters:
    the line feed [$] tolerates cannot end a stripped text. *)
Theorem is_valid_solana_address_of_stripped (text : str) :
  is_valid_solana_address (strip text) = true <->
  (32 <= length (strip text) <= 44)%nat
  /\ forallb is_base58_char (strip text) = true.
Proof.
  rewrite is_valid_stripped. unfold well_formed_address.
  rewrite !andb_true_iff, !Nat.leb_le. tauto.
Qed.

(** ** Stripping *)

Lemma lstrip_spaces (pre s : str) :
  forallb isspace pre = true -> lstrip (pre ++ s) = lstrip s.
Proof.
  induction pre as [|c pre IH]; [reflexivity|].
  cbn [forallb app lstrip]. intros H.
  apply andb_true_iff in H as [-> H]. auto.
Qed.

Lemma lstrip_all_spaces (s : str) :
  forallb isspace s = true -> lstrip s = [].
Proof.
  intros H. rewrite <- (app_nil_r s). now rewrite lstrip_spaces.
Qed.

Lemma lstrip_app (s post : str) :
  lstrip s <> [] -> lstrip (s ++ post) = lstrip s ++ post.
Proof.
  induction s as [|c s IH]; [easy|].
  cbn [app lstrip]. destruct (isspace c); auto.
Qed.

Lemma lstrip_nil_spaces (s : str) : lstrip s = [] -> forallb isspace s = true.
Proof.
  induction s as [|c s IH]; [reflexivity|].
  cbn [lstrip forallb]. destruct (isspace c); [auto | discriminate].
Qed.

Lemma forallb_rev (f : char -> bool) (s : str) :
  forallb f (rev s) = forallb f s.
Proof.
  induction s as [|c s IH]; [reflexivity|].
  cbn [rev forallb]. rewrite forallb_app, IH. cbn. rewrite andb_true_r.
  apply andb_comm.
Qed.

Lemma rstrip_spaces (s post : str) :
  forallb isspace post = true -> rstrip (s ++ post) = rstrip s.
Proof.
  intros H. unfold rstrip. rewrite rev_app_distr, lstrip_spaces; auto.
  now rewrite forallb_rev.
Qed.

Lemma strip_spaces (pre s post : str) :
  forallb isspace pre = true ->
  forallb isspace post = true ->
  strip (pre ++ s ++ post) = strip s.
Proof.
  intros Hpre Hpost. unfold strip. rewrite lstrip_spaces by assumption.
  destruct (lstrip s) as [|c r] eqn:Hs.
  - rewrite lstrip_all_spaces; [reflexivity|].
    rewrite forallb_app, Hpost, (lstrip_nil_spaces _ Hs). reflexivity.
  - rewrite lstrip_app by (rewrite Hs; discriminate).
    rewrite Hs. now apply rstrip_spaces.
Qed.

(** X3: white space around the text does not count. A text and the same
    text with white space before and after it are handled by the same
    program, so in every world and from every registry they give the same
    reply, the same registry and the same trace. *)
Theorem handle_message_ignores_surrounding_space
    (chat : option str) (repr : json -> str) (pre text post : str) :
  forallb isspace pre = true ->
  forallb isspace post = true ->
  handle_message chat repr (pre ++ text ++ post) = handle_message chat repr text
  /\ forall (w : world) (reg : gset str),
       run w (handle_message chat repr (pre ++ text ++ post)) reg
       = run w (handle_message chat repr text) reg.
Proof.
  intros Hpre Hpost.
  assert (H : handle_message chat repr (pre ++ text ++ post)
              = handle_message chat repr text).
  { unfold handle_message. cbn zeta. now rewrite strip_spaces. }
  split; [exact H|]. intros w reg. now rewrite H.
Qed.

Lemma handle_message_ignores_surrounding_space_witness :
  forallb isspace (lit "  ") = true
  /\ forallb isspace [LF] = true
  /\ handle_message None no_repr (lit "  " ++ wrapped_sol ++ [LF])
     = handle_message None no_repr wrapped_sol
  /\ forall (w : world) (reg : gset str),
       run w (handle_message None no_repr (lit "  " ++ wrapped_sol ++ [LF])) reg
       = run w (handle_message None no_repr wrapped_sol) reg.
Proof.
  split; [reflexivity|]. split; [reflexivity|].
  apply (handle_message_ignores_surrounding_space None no_repr
           (lit "  ") wrapped_sol [LF]); reflexivity.
Defined.

(** ** Every way a handling can go *)

Lemma handle_message_cases
    (chat : option str) (repr : json -> str) (w : world) (text : str)
    (reg : gset str) :
  let a := strip text in
  let r := run w (handle_message chat repr text) reg in
  (is_valid_solana_address a = false
   /\ r = {| outcome_of := sent (reply_text w msg_invalid); registry := reg;
             trace := [DidReplyText msg_invalid] |})
  \/ (is_valid_solana_address a = true /\ a ∈ reg
      /\ r = {| outcome_of := sent (reply_text w msg_processed);
                registry := reg; trace := [DidReplyText msg_processed] |})
  \/ (is_valid_solana_address a = true /\ (a ∉ reg)
      /\ exists v logs,
           run w (execute_jupiter_swap a) ({[a]} ∪ reg) =
           {| outcome_of := Returned v; registry := {[a]} ∪ reg;
              trace := DidRequestsGet quote_url (quote_params a)
                         :: List.map DidLoggerError logs |}
           /\ ((truthy v = false
                /\ r = {| outcome_of := sent (reply_text w msg_failed);
                          registry := {[a]} ∪ reg;
                          trace := accepted_actions a logs
                                     ++ [DidReplyText msg_failed] |})
               \/ (truthy v = true
                   /\ exists e,
                        getitem v (lit "outAmount") = inl e
                        /\ r = {| outcome_of := Raised e;
                                  registry := {[a]} ∪ reg;
                                  trace := accepted_actions a logs ++
                                    (if configured chat
                                     then [DidLoggerError
                                             (lit "Failed to forward to group: "
                                                ++ str_of_exn e)]
                                     else []) |})
               \/ (truthy v = true
                   /\ exists out,
                        getitem v (lit "outAmount") = inr out
                        /\ r = {| outcome_of :=
                                    sent (reply_text w (sender_text repr a out));
                                  registry := {[a]} ∪ reg;
                                  trace := accepted_actions a logs
                                    ++ (if configured chat
                                        then forward_actions repr w a
                                               (default [] chat) out
                                        else [])
                                    ++ [DidReplyText (sender_text repr a out)] |}))).
Proof.
  intros a r. subst a r.
  destruct (is_valid_solana_address (strip text)) eqn:Hv.
  2: { left. split; [reflexivity|]. now apply handle_message_invalid_run. }
  right. destruct (decide (strip text ∈ reg)) as [Hin|Hnew].
  { left. split; [reflexivity|]. split; [assumption|].
    now apply handle_message_seen_run. }
  right. split; [reflexivity|]. split; [assumption|].
  destruct (execute_jupiter_swap_run w (strip text) ({[strip text]} ∪ reg))
    as (v & logs & Hrun).
  exists v, logs. split; [exact Hrun|].
  destruct (truthy v) eqn:Ht.
  2: { left. split; [reflexivity|].
       now apply (handle_message_falsy_run chat repr w text reg v logs). }
  right. destruct (getitem v (lit "outAmount")) as [e|out] eqn:Hout.
  { left. split; [reflexivity|]. exists e. split; [reflexivity|].
    now apply (handle_message_shape_run chat repr w text reg v logs). }
  right. split; [reflexivity|]. exists out. split; [reflexivity|].
  destruct (configured chat) eqn:Hchat.
  - destruct chat as [[|c cs]|]; try discriminate.
    now apply (handle_message_forward_run _ repr w text reg v logs).
  - cbn [app].
    now apply (handle_message_no_forward_run chat repr w text reg v logs).
Qed.

(** X4: what a handling does to the registry. Afterwards an address is in
    it exactly when it was in it before, or it is the stripped text of the
    message and the validator accepts it. So nothing ever leaves the
    registry, and no message puts in anything but its own address. *)
Theorem handle_message_registry
    (chat : option str) (repr : json -> str) (w : world) (text : str)
    (reg : gset str) (b : str) :
  b ∈ registry (run w (handle_message chat repr text) reg) <->
  b ∈ reg \/ (b = strip text /\ is_valid_solana_address b = true).
Proof.
  destruct (handle_message_cases chat repr w text reg)
    as [(Hv & ->) | [(Hv & Hin & ->) | (Hv & Hnew & v & logs & _ & Hr)]];
    cbn [registry].
  - split; [auto|]. intros [H | [-> H]]; [assumption | congruence].
  - split; [auto|]. intros [H | [-> H]]; assumption.
  - assert (Hreg : registry (run w (handle_message chat repr text) reg)
                   = {[strip text]} ∪ reg).
    { destruct Hr as [(_ & ->) | [(_ & e & _ & ->) | (_ & out & _ & ->)]];
        reflexivity. }
    rewrite Hreg, elem_of_union, elem_of_singleton.
    split; [intros [-> | H]; auto | intros [H | [-> _]]; auto].
Qed.



(** X6: how a handler can raise. Either the update has no message, or its
    message has no text, and line 83 raises [AttributeError] before
    anything is done; or the update carries a text and the body runs on
    it, and then the body raises for one of two reasons only: the one reply
    it made raised, or the quote was a truthy value that could not be
    subscripted by the amount key (and then no reply was made). A failure
    of the quote request or of the forward never makes it raise. *)
Theorem handle_update_raises_only
    (chat : option str) (repr : json -> str) (w : world) (u : update)
    (reg : gset str) :
  ((update_message u = None
    \/ update_message u = Some {| message_text := None |})
   /\ exists msg, handle_update chat repr u = AttributeError msg)
  \/ exists text,
       update_message u = Some {| message_text := Some text |}
       /\ handle_update chat repr u = Body (handle_message chat repr text)
       /\ forall e,
            outcome_of (run w (handle_message chat repr text) reg) = Raised e ->
            (exists t,
               replies (trace (run w (handle_message chat repr text) reg)) = [t]
               /\ reply_text w t = inl e)
            \/ (replies (trace (run w (handle_message chat repr text) reg)) = []
                /\ exists quote,
                     outcome_of (run w (execute_jupiter_swap (strip text)) reg)
                       = Returned quote
                     /\ truthy quote = true
                     /\ getitem quote (lit "outAmount") = inl e).
Proof.
  unfold handle_update.
  destruct u as [[[[text|]]|]]; cbn [update_message message_text].
  2: { left. split; [now right | eauto]. }
  2: { left. split; [now left | eauto]. }
  right. exists text. split; [reflexivity|]. split; [reflexivity|].
  intros e.
  assert (Hsent : forall t, sent (reply_text w t) = Raised e ->
                            reply_text w t = inl e).
  { intros t. destruct (reply_text w t) as [e'|[]]; cbn; congruence. }
  destruct (handle_message_cases chat repr w text reg)
    as [(Hv & ->) | [(Hv & Hin & ->) | (Hv & Hnew & v & logs & Hq & Hr)]];
    cbn [outcome_of trace].
  - intros H. left. exists msg_invalid. split; [reflexivity | auto].
  - intros H. left. exists msg_processed. split; [reflexivity | auto].
  - destruct Hr as [(_ & ->) | [(Ht & e' & Hout & ->) | (_ & out & _ & ->)]];
      cbn [outcome_of trace]; intros H.
    + left. exists msg_failed. split; [project; reflexivity | auto].
    + injection H as ->. right.
      split; [destruct (configured chat); project; reflexivity|].
      exists v. split; [|split; assumption].
      rewrite (execute_jupiter_swap_outcome w _ reg ({[strip text]} ∪ reg)).
      now rewrite Hq.
    + left. eexists. split; [|apply Hsent, H].
      destruct (configured chat); project; reflexivity.
Qed.

(** The three ways, each in a run: an edited message, a reply that cannot
    be delivered, a quote without an amount. *)
Example handle_update_edited_message :
  handle_update None no_repr {| update_message := None |}
  = AttributeError (lit "'NoneType' object has no attribute 'text'").
Proof. reflexivity. Qed.

Example handle_message_reply_raises :
  let w := {| requests_get := fun _ _ => inl (LibraryError (lit "unreachable"));
              reply_text := fun _ => inl (LibraryError (lit "Forbidden"));
              send_message := fun _ _ _ => inr tt |} in
  let r := run w (handle_message None no_repr (lit "short")) ∅ in
  outcome_of r = Raised (LibraryError (lit "Forbidden"))
  /\ replies (trace r) = [msg_invalid].
Proof. split; reflexivity. Qed.

Example handle_message_quote_shape_raises :
  let body := JObj [(lit "error", JStr (lit "Could not find any route"))] in
  let w := answering (inr (http_response 200 (inr body))) (inr tt) in
  let r := run w (handle_message None no_repr wrapped_sol) ∅ in
  outcome_of r = Raised (KeyError (lit "outAmount"))
  /\ replies (trace r) = [].
Proof.
  intros body w r. subst r.
  rewrite (handle_message_shape_run None no_repr w wrapped_sol ∅ body []
             eq_refl (not_elem_of_empty _) eq_refl
             (KeyError (lit "outAmount")) eq_refl eq_refl).
  split; reflexivity.
Qed.

(** ** Sessions *)

#[local] Set Warnings "-clear-no-such-hyp".

(** One handling either inserts nothing and requests nothing, or inserts
    the valid, unseen address of the message and requests its quote. *)
Lemma handle_message_step
    (chat : option str) (repr : json -> str) (w : world) (text : str)
    (reg : gset str) :
  let r := run w (handle_message chat repr text) reg in
  (insertions (trace r) = [] /\ quote_requests (trace r) = []
   /\ registry r = reg)
  \/ (is_valid_solana_address (strip text) = true
      /\ well_formed_address (strip text) = true
      /\ (strip text ∉ reg)
      /\ insertions (trace r) = [strip text]
      /\ quote_requests (trace r) = [(quote_url, quote_params (strip text))]
      /\ registry r = {[strip text]} ∪ reg).
Proof.
  intros r. subst r.
  destruct (handle_message_cases chat repr w text reg)
    as [(Hv & ->) | [(Hv & Hin & ->) | (Hv & Hnew & v & logs & _ & Hr)]];
    cbn [trace registry].
  - left. repeat split.
  - left. repeat split.
  - right. split; [assumption|].
    split; [now rewrite <- is_valid_stripped|]. split; [assumption|].
    destruct Hr as [(_ & ->) | [(_ & e & _ & ->) | (_ & out & _ & ->)]];
      cbn [trace registry]; destruct (configured chat);
      repeat split; project; reflexivity.
Qed.

Lemma quote_params_inj (a b : str) : quote_params a = quote_params b -> a = b.
Proof. unfold quote_params. intros H. now injection H. Qed.

Lemma handle_all_session
    (chat : option str) (repr : json -> str) (updates : list (world * str)) :
  forall reg : gset str,
    let reg' := fst (handle_all chat repr updates reg) in
    let tr := snd (handle_all chat repr updates reg) in
    reg' = reg ∪ list_to_set (insertions tr)
    /\ NoDup (insertions tr)
    /\ (forall a, a ∈ insertions tr ->
          (a ∉ reg) /\ is_valid_solana_address a = true
          /\ well_formed_address a = true)
    /\ quote_requests tr
       = List.map (fun a => (quote_url, quote_params a)) (insertions tr).
Proof.
  induction updates as [|[w text] rest IH]; intros reg.
  - cbn. split; [set_solver|]. split; [constructor|].
    split; [|reflexivity]. intros a H. inversion H.
  - cbn [handle_all].
    specialize (IH (registry (run w (handle_message chat repr text) reg))).
    destruct (handle_all chat repr rest
                (registry (run w (handle_message chat repr text) reg)))
      as [reg1 tr1].
    cbn [fst snd] in *. destruct IH as (Hreg & Hnd & Hall & Hreq).
    rewrite insertions_app, quote_requests_app.
    destruct (handle_message_step chat repr w text reg)
      as [(Hi & Hq & Hr) | (Hv & Hwf & Hnew & Hi & Hq & Hr)];
      rewrite Hi, Hq; rewrite Hr in Hreg, Hall; cbn [app].
    + split; [assumption|]. split; [assumption|]. split; assumption.
    + split; [|split; [|split]].
      * rewrite Hreg. cbn [list_to_set foldr]. set_solver.
      * constructor; [|assumption].
        intros Hin. apply Hall in Hin as [Hin _]. set_solver.
      * intros b Hb. apply elem_of_cons in Hb as [-> | Hb]; [auto|].
        apply Hall in Hb as (Hb & Hvb & Hwb).
        split; [set_solver | auto].
      * cbn [List.map]. now rewrite Hreq.
Qed.

(** X7: one-time processing over a session. However many updates are
    handled one after the other, and whatever the world does, no two quote
    requests of the session are for the same address, and each is for an
    address the validator accepts that was not in the registry at the
    start. *)
Theorem handle_all_quotes_once
    (chat : option str) (repr : json -> str) (updates : list (world * str))
    (reg : gset str) :
  let tr := snd (handle_all chat repr updates reg) in
  NoDup (quote_requests tr)
  /\ forall q, q ∈ quote_requests tr ->
       exists a, q = (quote_url, quote_params a)
                 /\ (a ∉ reg)
                 /\ is_valid_solana_address a = true.
Proof.
  intros tr. subst tr.
  destruct (handle_all_session chat repr updates reg)
    as (_ & Hnd & Hall & Hreq).
  rewrite Hreq. split.
  - apply NoDup_fmap_2; [|assumption].
    intros a b H. apply quote_params_inj. congruence.
  - intros q Hq. apply list_elem_of_fmap in Hq as (a & -> & Ha).
    exists a. split; [reflexivity|]. apply Hall in Ha as (? & ? & ?). auto.
Qed.

(** X8: the registry of a session. After any sequence of updates it is the
    registry of the start together with the addresses quoted during the
    session; so, started empty as the process starts it, it only ever
    holds strings of 32 to 44 base-58 characters. *)
Theorem handle_all_registry
    (chat : option str) (repr : json -> str) (updates : list (world * str))
    (reg : gset str) :
  let reg' := fst (handle_all chat repr updates reg) in
  let tr := snd (handle_all chat repr updates reg) in
  (forall a, a ∈ reg' <->
             a ∈ reg \/ (quote_url, quote_params a) ∈ quote_requests tr)
  /\ (forall a, a ∈ fst (handle_all chat repr updates ∅) ->
                 well_formed_address a = true).
Proof.
  intros reg' tr. subst reg' tr.
  destruct (handle_all_session chat repr updates reg)
    as (Hreg & _ & Hall & Hreq).
  assert (Hmem : forall a,
             (quote_url, quote_params a)
               ∈ quote_requests (snd (handle_all chat repr updates reg))
             <-> a ∈ insertions (snd (handle_all chat repr updates reg))).
  { intros a. rewrite Hreq. split.
    - intros H. apply list_elem_of_fmap in H as (b & Hb & Hin).
      assert (a = b) as -> by (apply quote_params_inj; congruence).
      assumption.
    - intros H. apply list_elem_of_fmap. eauto. }
  split.
  - intros a. rewrite Hreg, Hmem, elem_of_union, elem_of_list_to_set.
    reflexivity.
  - intros a Ha.
    destruct (handle_all_session chat repr updates ∅) as (He & _ & Hall' & _).
    rewrite He in Ha.
    apply elem_of_union in Ha as [Ha | Ha]; [now apply not_elem_of_empty in Ha|].
    apply elem_of_list_to_set, Hall' in Ha as (_ & _ & Hw). exact Hw.
Qed.

(** ** Interleaved handlers *)

Lemma quiet_bind {A B : Type} (m : prog A) (f : A -> prog B) :
  quiet m -> (forall a, quiet (f a)) -> quiet (bind m f).
Proof.
  intros Hm Hf. induction m as [a|e|X op k IH]; cbn; auto.
  destruct Hm as [Hop Hk]. split; auto.
Qed.

Lemma quiet_try_except {A : Type} (m : prog A) (h : exn -> prog A) :
  quiet m -> (forall e, quiet (h e)) -> quiet (try_except m h).
Proof.
  intros Hm Hh. induction m as [a|e|X op k IH]; cbn; auto.
  destruct Hm as [Hop Hk]. split; auto.
Qed.

Lemma quiet_call {A : Type} (op : effect (exn + A)) :
  silent op = true -> quiet (call op).
Proof. intros H. split; [exact H|]. now intros [e|a]. Qed.

Lemma quiet_lift {A : Type} (r : exn + A) : quiet (lift r).
Proof. now destruct r. Qed.

Lemma perform_silent {X : Type} (w : world) (op : effect X) (reg : gset str) :
  silent op = true ->
  snd (fst (perform w op reg)) = reg
  /\ insertions (snd (perform w op reg)) = []
  /\ quote_requests (snd (perform w op reg)) = [].
Proof. destruct op; cbn; intros H; try discriminate; auto. Qed.

Lemma advance_quiet {A : Type} (w : world) (p : prog A) :
  quiet p ->
  forall reg,
    quiet_stage (fst (fst (advance w p reg)))
    /\ snd (fst (advance w p reg)) = reg
    /\ insertions (snd (advance w p reg)) = []
    /\ quote_requests (snd (advance w p reg)) = [].
Proof.
  induction p as [a|e|X op k IH]; intros Hq reg; cbn [advance].
  - cbn. repeat split.
  - cbn. repeat split.
  - destruct Hq as [Hop Hk].
    destruct (suspends op); [cbn; repeat split; auto|].
    pose proof (perform_silent w op reg Hop) as (Hr & Hi & Hg).
    destruct (perform w op reg) as [[x reg1] acts]. cbn [fst snd] in *.
    specialize (IH x (Hk x) reg1).
    destruct (advance w (k x) reg1) as [[s reg2] tr]. cbn [fst snd] in *.
    destruct IH as (Hs & Hr2 & Hi2 & Hg2).
    rewrite insertions_app, quote_requests_app, Hi, Hg, Hi2, Hg2.
    repeat split; auto. congruence.
Qed.

(** The first turn of a handler. *)
Lemma resume_not_started
    (chat : option str) (repr : json -> str) (w : world) (text : str)
    (reg : gset str) (texts : list str) :
  text ∈ texts ->
  let r := resume w (NotStarted (handle_message chat repr text)) reg in
  handler_task chat repr texts (fst (fst r))
  /\ turn_effect reg (snd (fst r)) (snd r) texts.
Proof.
  intros Hin r. subst r. cbn [resume].
  unfold handle_message. cbn zeta.
  destruct (is_valid_solana_address (strip text)) eqn:Hv; cbn [negb].
  2: { cbn. split; [right; eexists; split; [reflexivity|]|left; auto].
       cbn. split; [reflexivity|]. now intros [e|[]]. }
  cbn [bind advance perform suspends].
  destruct (decide (strip text ∈ reg)) as [Hseen|Hnew].
  { rewrite (bool_decide_eq_true_2 _ Hseen). cbn.
    split; [right; eexists; split; [reflexivity|]|left; auto].
    cbn. split; [reflexivity|]. now intros [e|[]]. }
  rewrite (bool_decide_eq_false_2 _ Hnew).
  cbn [bind advance perform suspends].
  rewrite advance_bind.
  destruct (execute_jupiter_swap_advance w (strip text) ({[strip text]} ∪ reg))
    as (v & logs & ->).
  match goal with |- context [advance w ?p ?g] =>
    assert (Hq : quiet p); [|pose proof (advance_quiet w p Hq g) as Ha;
                             destruct (advance w p g) as [[s reg2] tr]]
  end.
  { destruct (negb (truthy v)); [now apply quiet_call|].
    apply quiet_bind.
    - destruct chat as [[|c cs]|]; cbn; auto.
      apply quiet_try_except.
      + apply quiet_bind; [apply quiet_lift|]. intros out. now apply quiet_call.
      + intros e. cbn. auto.
    - intros _. apply quiet_bind; [apply quiet_lift|].
      intros out. now apply quiet_call. }
  cbn [fst snd] in *. destruct Ha as (Hs & -> & Hi & Hg).
  split; [right; eauto|].
  right. exists text. repeat split; auto.
  - rewrite !insertions_app. cbn [app]. rewrite !insertions_cons, Hi.
    now rewrite (proj2 (proj2 (proj2 (logs_silent logs)))).
  - rewrite !quote_requests_app. cbn [app]. rewrite !quote_requests_cons, Hg.
    now rewrite (proj1 (proj2 (proj2 (logs_silent logs)))).
Qed.

(** Any turn of a task of the pool. *)
Lemma resume_handler_task
    (chat : option str) (repr : json -> str) (w : world) (t : task)
    (reg : gset str) (texts : list str) :
  handler_task chat repr texts t ->
  handler_task chat repr texts (fst (fst (resume w t reg)))
  /\ turn_effect reg (snd (fst (resume w t reg))) (snd (resume w t reg)) texts.
Proof.
  intros [(text & Hin & ->) | (s & -> & Hs)].
  - now apply resume_not_started.
  - destruct s as [o|X op k].
    + cbn. split; [right; eauto | left; auto].
    + cbn [resume]. destruct Hs as [Hop Hk].
      pose proof (perform_silent w op reg Hop) as (Hr & Hi & Hg).
      destruct (perform w op reg) as [[x reg1] acts]. cbn [fst snd] in *.
      pose proof (advance_quiet w (k x) (Hk x) reg1) as Ha.
      destruct (advance w (k x) reg1) as [[s reg2] tr]. cbn [fst snd] in *.
      destruct Ha as (Hs & -> & Hi2 & Hg2).
      split; [right; eauto|]. left.
      rewrite insertions_app, quote_requests_app, Hi, Hg, Hi2, Hg2. auto.
Qed.

Lemma run_pool_session
    (chat : option str) (repr : json -> str) (texts : list str)
    (schedule : list (nat * world)) :
  forall (pool : list task) (reg : gset str),
    Forall (handler_task chat repr texts) pool ->
    let reg' := snd (fst (run_pool schedule pool reg)) in
    let tr := snd (run_pool schedule pool reg) in
    reg' = reg ∪ list_to_set (insertions tr)
    /\ NoDup (insertions tr)
    /\ (forall a, a ∈ insertions tr ->
          (a ∉ reg) /\ is_valid_solana_address a = true
          /\ exists text, text ∈ texts /\ a = strip text)
    /\ quote_requests tr
       = List.map (fun a => (quote_url, quote_params a)) (insertions tr).
Proof.
  induction schedule as [|[i w] rest IH]; intros pool reg Hpool.
  - cbn. split; [set_solver|]. split; [constructor|].
    split; [|reflexivity]. intros a H. inversion H.
  - cbn [run_pool]. destruct (pool !! i) as [t|] eqn:Ht; [|now apply IH].
    pose proof (resume_handler_task chat repr w t reg texts
                  (Forall_lookup_1 _ _ _ _ Hpool Ht)) as [Ht' Heff].
    destruct (resume w t reg) as [[t' reg1] tr1]. cbn [fst snd] in *.
    specialize (IH (<[i := t']> pool) reg1 (Forall_insert _ _ _ _ Hpool Ht')).
    destruct (run_pool rest (<[i := t']> pool) reg1) as [[pool' reg2] tr2].
    cbn [fst snd] in *. destruct IH as (Hreg & Hnd & Hall & Hreq).
    rewrite insertions_app, quote_requests_app.
    destruct Heff as [(Hi & Hq & ->) | (text & Hin & Hv & Hnew & Hi & Hq & ->)];
      rewrite Hi, Hq; cbn [app].
    + split; [assumption|]. split; [assumption|]. split; assumption.
    + split; [|split; [|split]].
      * rewrite Hreg. cbn [list_to_set foldr]. set_solver.
      * constructor; [|assumption].
        intros Hin'. apply Hall in Hin' as [Hin' _]. set_solver.
      * intros b Hb. apply elem_of_cons in Hb as [-> | Hb]; [eauto 6|].
        apply Hall in Hb as (Hb & Hvb & Htb).
        split; [set_solver | auto].
      * cbn [List.map]. now rewrite Hreq.
Qed.

(** X9: one-time processing under interleaving. Take any number of
    messages, each handled by its own task, and let the tasks take turns in
    any order, a task giving way only where it awaits a Telegram call.
    Whatever the order and whatever the world does, no two quote requests
    are for the same address, and each is for the stripped text of one of the
    messages, accepted by the validator and not in the registry at the
    start: the membership test and the insertion are never separated. *)
Theorem run_pool_quotes_once
    (chat : option str) (repr : json -> str) (texts : list str)
    (schedule : list (nat * world)) (reg : gset str) :
  let pool := List.map (fun text => NotStarted (handle_message chat repr text))
                texts in
  let tr := snd (run_pool schedule pool reg) in
  NoDup (quote_requests tr)
  /\ forall q, q ∈ quote_requests tr ->
       exists text,
         text ∈ texts
         /\ q = (quote_url, quote_params (strip text))
         /\ (strip text ∉ reg)
         /\ is_valid_solana_address (strip text) = true.
Proof.
  intros pool tr. subst pool tr.
  assert (Hpool : Forall (handler_task chat repr texts)
                    (List.map (fun text =>
                                 NotStarted (handle_message chat repr text))
                       texts)).
  { apply Forall_forall. intros t Ht.
    apply list_elem_of_fmap in Ht as (text & -> & Hin). left. eauto. }
  destruct (run_pool_session chat repr texts schedule _ reg Hpool)
    as (_ & Hnd & Hall & Hreq).
  rewrite Hreq. split.
  - apply NoDup_fmap_2; [|assumption].
    intros a b H. apply quote_params_inj. congruence.
  - intros q Hq. apply list_elem_of_fmap in Hq as (a & -> & Ha).
    apply Hall in Ha as (Hnew & Hv & text & Hin & ->). eauto 6.
Qed.

(** A run of the pool: two messages for one address, the second task
    taking its first turn while the first waits for its reply to go out. *)
Example two_tasks_one_quote :
  let w := answering (inr (http_response 200 (inr (quote_body (lit "123456")))))
             (inr tt) in
  let pool := [ NotStarted (handle_message None no_repr wrapped_sol);
                NotStarted (handle_message None no_repr (wrapped_sol ++ [LF])) ] in
  let tr := snd (run_pool [(0%nat, w); (1%nat, w); (1%nat, w); (0%nat, w)]
                   pool ∅) in
  quote_requests tr = [(quote_url, quote_params wrapped_sol)]
  /\ replies tr = [ msg_processed;
                    sender_text no_repr wrapped_sol (JStr (lit "123456")) ].
Proof. vm_compute. split; reflexivity. Qed.

(** ** The quote client, once more *)

(** X10: the quote client touches nothing but the network and the log. It
    leaves the registry as it is and sends no Telegram message. When the
    request raises, when the status is a 4xx or 5xx one, and when the body
    does not parse, it returns [None] and its trace is the request followed
    by one error line that carries the text of the exception; when the body
    parses it returns the parsed value and its trace is the request alone,
    with no log line, also when that value is [None]. *)
Theorem execute_jupiter_swap_effects (w : world) (a : str) (reg : gset str) :
  let r := run w (execute_jupiter_swap a) reg in
  let failed (e : exn) :=
    outcome_of r = Returned JNull
    /\ trace r = [ DidRequestsGet quote_url (quote_params a);
                   DidLoggerError (lit "Error getting Jupiter quote: "
                                     ++ str_of_exn e) ] in
  registry r = reg
  /\ replies (trace r) = []
  /\ forwards (trace r) = []
  /\ insertions (trace r) = []
  /\ match requests_get w quote_url (quote_params a) with
     | inl e => failed e
     | inr resp =>
         if ((400 <=? status_code resp) && (status_code resp <? 600))%Z then
           failed (LibraryError
                     (str_of_Z (status_code resp)
                        ++ lit (if (status_code resp <? 500)%Z
                                then " Client Error: "
                                else " Server Error: ")
                        ++ reason resp ++ lit " for url: " ++ url resp))
         else
           match json_result resp with
           | inl e => failed e
           | inr v =>
               outcome_of r = Returned v
               /\ trace r = [DidRequestsGet quote_url (quote_params a)]
           end
     end.
Proof.
  unfold execute_jupiter_swap, call, raise_for_status. simpl.
  destruct (requests_get w quote_url (quote_params a)) as [e|r]; simpl.
  { repeat split. }
  destruct (Z.leb_spec 400 (status_code r)), (Z.ltb_spec (status_code r) 500),
    (Z.leb_spec 500 (status_code r)), (Z.ltb_spec (status_code r) 600);
    try lia; simpl.
  all: try (repeat split; fail).
  all: destruct (json_result r) as [e|v]; simpl; repeat split.
Qed.

(** ** Start-up *)

Module StartupFacts.
Import Startup.

#[local] Ltac walk w :=
  repeat (cbn [exec seq catch invoke fst snd negb];
          match goal with
          | |- context [match w ?X ?o with _ => _ end] =>
              let H := fresh "Hw" in destruct (w X o) as [?|?] eqn:H
          | H : context [match w ?X ?o with _ => _ end] |- _ =>
              let H' := fresh "Hw" in destruct (w X o) as [?|?] eqn:H'
          end);
  cbn [exec seq catch invoke fst snd negb] in *;
  repeat match goal with
    | |- context [w unit ?o] => destruct (w unit o)
    end.

#[local] Ltac ends :=
  first [ eexists [], _; reflexivity
        | eexists [_], _; reflexivity
        | eexists [_; _], _; reflexivity
        | eexists [_; _; _], _; reflexivity
        | eexists [_; _; _; _], _; reflexivity
        | eexists [_; _; _; _; _], _; reflexivity
        | eexists [_; _; _; _; _; _], _; reflexivity
        | eexists [_; _; _; _; _; _; _], _; reflexivity
        | eexists [_; _; _; _; _; _; _; _], _; reflexivity
        | eexists [_; _; _; _; _; _; _; _; _], _; reflexivity ].

(** X11: [setup_wallet] never raises. It returns [True] only when the key
    is set and not empty, the base-58 decoding gave bytes and those bytes
    gave a key pair, and then the global wallet is that key pair; when it
    returns [False] the last thing it did was to log an error. The wallet
    changes only to a key pair that the bytes gave. *)
Theorem setup_wallet_result
    (PRIVATE_KEY : option str) (w : world) (wallet0 : option obj) :
  let r := exec w (setup_wallet PRIVATE_KEY) wallet0 in
  exists ok,
    fst (fst r) = Returned ok
    /\ (ok = true ->
        exists key raw k,
          PRIVATE_KEY = Some key /\ key <> []
          /\ w _ (B58decode key) = inr raw
          /\ w _ (KeypairFromBytes raw) = inr k
          /\ snd (fst r) = Some k)
    /\ (ok = false -> exists pre msg, snd r = pre ++ [Did (LogError msg)])
    /\ (snd (fst r) = wallet0
        \/ exists raw k,
             w _ (KeypairFromBytes raw) = inr k /\ snd (fst r) = Some k).
Proof.
  intros r. subst r. unfold setup_wallet.
  destruct PRIVATE_KEY as [[|c cs]|]; walk w.
  all: eexists; split; [reflexivity|].
  all: split; [intros H; try discriminate H|].
  all: try (split; [intros H; try discriminate H; ends|]).
  all: try (exists (c :: cs); eexists _, _; repeat split; eauto; discriminate).
  all: try (split; [intros H; discriminate H|]).
  all: eauto.
Qed.

(** X12: a key that is unset or empty. [setup_wallet] returns [False]
    after logging that the key is missing: nothing is decoded and the
    wallet stays as it was. *)
Theorem setup_wallet_missing_key
    (PRIVATE_KEY : option str) (w : world) (wallet0 : option obj) :
  configured PRIVATE_KEY = false ->
  exec w (setup_wallet PRIVATE_KEY) wallet0 =
  (Returned false, wallet0,
   [Did (LogError
           (lit "PRIVATE_KEY is missing. Please set it in the Env Secrets tab."))]).
Proof.
  intros H. unfold setup_wallet.
  destruct PRIVATE_KEY as [[|c cs]|]; try discriminate H; reflexivity.
Qed.

Lemma setup_wallet_missing_key_witness :
  configured (Some []) = false
  /\ exec all_well (setup_wallet (Some [])) None =
     (Returned false, None,
      [Did (LogError
              (lit "PRIVATE_KEY is missing. Please set it in the Env Secrets tab."))]).
Proof.
  split; [reflexivity|].
  apply (setup_wallet_missing_key (Some []) all_well None). reflexivity.
Defined.

(** X13: no wallet, no bot. Whenever [setup_wallet] returns [False], for
    whatever reason, [main] logs that it exits and returns: it prints no
    instructions, builds no application, registers no handler and never
    polls. *)
Theorem main_without_wallet
    (PRIVATE_KEY TELEGRAM_API_TOKEN : option str) (w : world)
    (wallet0 : option obj) :
  fst (fst (exec w (setup_wallet PRIVATE_KEY) wallet0)) = Returned false ->
  let r := exec w (main PRIVATE_KEY TELEGRAM_API_TOKEN) wallet0 in
  fst (fst r) = Returned tt
  /\ existsb touches_bot (snd r) = false
  /\ exists pre,
       snd r = pre ++ [Did (LogError (lit "Failed to set up wallet. Exiting."))].
Proof.
  unfold main, setup_wallet. cbn zeta.
  destruct PRIVATE_KEY as [[|c cs]|]; walk w; intros H; try discriminate H.
  all: split; [reflexivity|]; split; [reflexivity|].
  all: first [ eexists [_]; reflexivity
             | eexists [_; _]; reflexivity
             | eexists [_; _; _]; reflexivity
             | eexists [_; _; _; _]; reflexivity
             | eexists [_; _; _; _; _]; reflexivity ].
Qed.

Lemma main_without_wallet_witness :
  fst (fst (exec all_well (setup_wallet None) None)) = Returned false
  /\ fst (fst (exec all_well (main None (Some (lit "123:abc"))) None))
     = Returned tt
  /\ existsb touches_bot
       (snd (exec all_well (main None (Some (lit "123:abc"))) None)) = false
  /\ exists pre,
       snd (exec all_well (main None (Some (lit "123:abc"))) None)
       = pre ++ [Did (LogError (lit "Failed to set up wallet. Exiting."))].
Proof.
  split; [reflexivity|].
  apply (main_without_wallet None (Some (lit "123:abc")) all_well None).
  reflexivity.
Defined.

(** X14: no token, no bot. With the token unset or empty,
    [setup_and_run_bot] logs that it is missing, prints the set-up
    instructions and, if that returns, logs that it exits; [main] then
    builds no application and never polls. *)
Theorem main_without_token
    (PRIVATE_KEY TELEGRAM_API_TOKEN : option str) (w : world)
    (wallet0 : option obj) :
  configured TELEGRAM_API_TOKEN = false ->
  exec w (setup_and_run_bot TELEGRAM_API_TOKEN) wallet0 =
  (match w _ PrintSetupInstructions with
   | inl e => Raised e
   | inr _ => Returned tt
   end,
   wallet0,
   Did (LogError
          (lit "TELEGRAM_API_TOKEN is missing. Please set it in the Env Secrets tab."))
     :: Did PrintSetupInstructions
     :: match w _ PrintSetupInstructions with
        | inl _ => []
        | inr _ => [Did (LogError (lit "Failed to set up Telegram bot. Exiting."))]
        end)
  /\ existsb builds (snd (exec w (main PRIVATE_KEY TELEGRAM_API_TOKEN) wallet0))
     = false
  /\ existsb polls (snd (exec w (main PRIVATE_KEY TELEGRAM_API_TOKEN) wallet0))
     = false.
Proof.
  intros H. unfold main, setup_and_run_bot, setup_telegram_bot, setup_wallet.
  destruct TELEGRAM_API_TOKEN as [[|c cs]|]; try discriminate H.
  all: split; [walk w; reflexivity|].
  all: destruct PRIVATE_KEY as [[|c' cs']|]; walk w; split; reflexivity.
Qed.

Lemma main_without_token_witness :
  configured None = false
  /\ exec all_well (setup_and_run_bot None) None =
     (Returned tt, None,
      [ Did (LogError
               (lit "TELEGRAM_API_TOKEN is missing. Please set it in the Env Secrets tab."));
        Did PrintSetupInstructions;
        Did (LogError (lit "Failed to set up Telegram bot. Exiting.")) ])
  /\ existsb builds (snd (exec all_well (main (Some (lit "5Kb8")) None) None))
     = false
  /\ existsb polls (snd (exec all_well (main (Some (lit "5Kb8")) None) None))
     = false.
Proof.
  split; [reflexivity|].
  apply (main_without_token (Some (lit "5Kb8")) None all_well None).
  reflexivity.
Defined.

#[local] Ltac last_entry :=
  first [ eexists []; eexists; split; [reflexivity|]
        | eexists [_]; eexists; split; [reflexivity|]
        | eexists [_; _]; eexists; split; [reflexivity|]
        | eexists [_; _; _]; eexists; split; [reflexivity|]
        | eexists [_; _; _; _]; eexists; split; [reflexivity|]
        | eexists [_; _; _; _; _]; eexists; split; [reflexivity|]
        | eexists [_; _; _; _; _; _]; eexists; split; [reflexivity|]
        | eexists [_; _; _; _; _; _; _]; eexists; split; [reflexivity|]
        | eexists [_; _; _; _; _; _; _; _]; eexists; split; [reflexivity|]
        | eexists [_; _; _; _; _; _; _; _; _]; eexists; split; [reflexivity|]
        | eexists [_; _; _; _; _; _; _; _; _; _]; eexists; split; [reflexivity|]
        | eexists [_; _; _; _; _; _; _; _; _; _; _]; eexists; split; [reflexivity|]
        | eexists [_; _; _; _; _; _; _; _; _; _; _; _]; eexists; split; [reflexivity|]
        | eexists [_; _; _; _; _; _; _; _; _; _; _; _; _]; eexists; split; [reflexivity|]
        | eexists [_; _; _; _; _; _; _; _; _; _; _; _; _; _]; eexists; split; [reflexivity|]
        | eexists [_; _; _; _; _; _; _; _; _; _; _; _; _; _; _]; eexists; split; [reflexivity|] ].

#[local] Ltac answer H :=
  repeat match goal with
    | Hw : ?t = _ |- _ =>
        match type of H with context [raised t] => rewrite Hw in H end
    end.

#[local] Ltac locate Hsplit Hg Hr :=
  match type of Hsplit with
  | [] = ?pre ++ _ :: _ => destruct pre; discriminate Hsplit
  | _ :: _ = ?pre ++ ?d :: ?post =>
      destruct pre as [|? pre]; cbn [app] in Hsplit;
      [ injection Hsplit as ? ?; subst d post;
        cbn [guarded] in Hg; try discriminate Hg;
        cbn [raised_by] in Hr; answer Hr;
        cbn [raised] in Hr; try discriminate Hr;
        injection Hr as <-
      | injection Hsplit as _ Hsplit; locate Hsplit Hg Hr ]
  end.

(** X15: what [main] lets through and what it catches. An exception comes
    out of [main] only as the exception of its last call, and that call is
    the printing of the instructions or the initialisation, the start or
    the polling of the application. When a call made inside a [try] raises
    (the decoding of the key, the key pair, its public key, the builder,
    its token, its build, a registration), [main] returns without polling,
    and the two things it does after that call are to log the text of the
    exception, under the heading of the wallet or of the bot, and to log
    that it exits. *)
Theorem main_raises_only
    (PRIVATE_KEY TELEGRAM_API_TOKEN : option str) (w : world)
    (wallet0 : option obj) :
  let r := exec w (main PRIVATE_KEY TELEGRAM_API_TOKEN) wallet0 in
  (forall e,
     fst (fst r) = Raised e ->
     (exists pre d,
        snd r = pre ++ [d] /\ unguarded d = true /\ raised_by w d = Some e)
     /\ (w _ PrintSetupInstructions = inl e
         \/ exists app,
              w _ (Initialize app) = inl e
              \/ w _ (Start app) = inl e
              \/ w _ (RunPolling app) = inl e))
  /\ (forall pre d post e,
        snd r = pre ++ d :: post ->
        guarded d = true ->
        raised_by w d = Some e ->
        fst (fst r) = Returned tt
        /\ existsb polls (snd r) = false
        /\ exists heading exiting,
             ((heading = lit "Failed to initialize wallet: "
               /\ exiting = lit "Failed to set up wallet. Exiting.")
              \/ (heading = lit "Failed to set up Telegram bot: "
                  /\ exiting = lit "Failed to set up Telegram bot. Exiting."))
             /\ post = [ Did (LogError (heading ++ str_of_exn e));
                         Did (LogError exiting) ]).
Proof.
  unfold main, setup_and_run_bot, run_telegram_bot, setup_telegram_bot,
    setup_wallet. cbn zeta.
  destruct PRIVATE_KEY as [[|c cs]|]; destruct TELEGRAM_API_TOKEN as [[|c' cs']|];
    walk w.
  all: split;
    [ intros exc Hexc; try discriminate Hexc; injection Hexc as <-;
      (split;
       [ last_entry; split; [reflexivity|];
         cbn [raised_by];
         match goal with
         | Hw : ?t = _ |- context [raised ?t] => rewrite Hw
         end; reflexivity
       | eauto 6 ])
    | intros tpre td tpost exc Hsplit Hg Hr; locate Hsplit Hg Hr;
      (split; [reflexivity|]); (split; [reflexivity|]);
      first [ exists (lit "Failed to initialize wallet: ");
              eexists; split; [left; split; reflexivity | reflexivity]
            | exists (lit "Failed to set up Telegram bot: ");
              eexists; split; [right; split; reflexivity | reflexivity] ] ].
Qed.

(** Two runs of [main]: one in which the application cannot be initialised,
    and the exception goes through, and one in which the token is refused
    at the build, and [main] logs it and returns. *)
Example main_initialize_raises :
  fst (fst (exec init_fails (main (Some (lit "5Kb8")) (Some (lit "123:abc"))) None))
  = Raised (LibraryError (lit "Network is unreachable")).
Proof. reflexivity. Qed.

Example main_bad_token_returns :
  let r := exec bad_token (main (Some (lit "5Kb8")) (Some (lit "123:abc"))) None in
  fst (fst r) = Returned tt
  /\ exists pre,
       snd r = pre ++ [ Did (BuilderBuild 2);
                        Did (LogError (lit "Failed to set up Telegram bot: "
                                         ++ lit "Invalid token"));
                        Did (LogError (lit "Failed to set up Telegram bot. Exiting.")) ].
Proof.
  split; [reflexivity|]. eexists [_; _; _; _; _; _; _]. reflexivity.
Qed.

(** X16: what must have happened before the bot polls. When [main] gets to
    [run_polling], the key and the token are both set and not empty, the
    wallet holds a key pair, and the trace ends with the registration of
    the start command, the help command and the handler of plain text on
    one application, in this order, then its initialisation, its start and
    the polling. *)
Theorem main_polls_only_when_set_up
    (PRIVATE_KEY TELEGRAM_API_TOKEN : option str) (w : world)
    (wallet0 : option obj) :
  existsb polls (snd (exec w (main PRIVATE_KEY TELEGRAM_API_TOKEN) wallet0))
    = true ->
  configured PRIVATE_KEY = true
  /\ configured TELEGRAM_API_TOKEN = true
  /\ (exists k,
        snd (fst (exec w (main PRIVATE_KEY TELEGRAM_API_TOKEN) wallet0))
        = Some k)
  /\ exists pre app,
       snd (exec w (main PRIVATE_KEY TELEGRAM_API_TOKEN) wallet0)
       = pre ++ bot_started app.
Proof.
  unfold main, setup_and_run_bot, run_telegram_bot, setup_telegram_bot,
    setup_wallet.
  destruct PRIVATE_KEY as [[|c cs]|]; destruct TELEGRAM_API_TOKEN as [[|c' cs']|];
    walk w; intros H; try discriminate H.
  all: split; [reflexivity|]; split; [reflexivity|]; split; [eauto|].
  all: eexists [_; _; _; _; _; _; _; _], _; reflexivity.
Qed.

Lemma main_polls_only_when_set_up_witness :
  existsb polls
    (snd (exec all_well (main (Some (lit "5Kb8")) (Some (lit "123:abc"))) None))
    = true
  /\ configured (Some (lit "5Kb8")) = true
  /\ configured (Some (lit "123:abc")) = true
  /\ (exists k,
        snd (fst (exec all_well
                    (main (Some (lit "5Kb8")) (Some (lit "123:abc"))) None))
        = Some k)
  /\ exists pre app,
       snd (exec all_well (main (Some (lit "5Kb8")) (Some (lit "123:abc"))) None)
       = pre ++ bot_started app.
Proof.
  split; [reflexivity|].
  apply (main_polls_only_when_set_up (Some (lit "5Kb8")) (Some (lit "123:abc"))
           all_well None).
  reflexivity.
Defined.

End StartupFacts.
